(** * bencode.hpp: a shallow embedding of the decoder and the encoder

    The development follows [src/include/bencode.hpp].  An iterator pair
    [(begin, end)] is modelled by the list of bytes that lies between the two
    positions: advancing [begin] drops the head of the list, [begin == end]
    is the empty list and [std::distance(begin, end)] is its length.  Every
    decoding function therefore returns, next to its value, the bytes that
    are left, which is where the caller's [begin] now points. *)

From Stdlib Require Import String Ascii ZArith List Bool Lia Sorted.
Import ListNotations.

Local Open Scope Z_scope.

(** ** Bytes and machine integers *)

Definition bytes := list ascii.

(** The bytes of a string literal. *)
Definition lit (s : string) : bytes := list_ascii_of_string s.

(** The numeric value of a byte. *)
Definition code (c : ascii) : Z := Z.of_N (N_of_ascii c).

(** [std::isdigit] in the "C" locale. *)
Definition isdigit (c : ascii) : bool :=
  (code "0" <=? code c) && (code c <=? code "9").

(** [bencode::integer] is [long long].  Signed overflow is undefined in C++;
    the model gives it the two's complement wrap-around that the usual
    compilers produce, so every arithmetic step is followed by [wrap64]. *)
Definition wrap64 (z : Z) : Z := (z + 2 ^ 63) mod 2 ^ 64 - 2 ^ 63.

(** [std::size_t] arithmetic is modular. *)
Definition size_t (z : Z) : Z := z mod 2 ^ 64.

(** [static_cast<std::ptrdiff_t>(len)] for a [size_t]. *)
Definition to_ptrdiff (len : Z) : Z := wrap64 len.

(** ** Values

    [BENCODE_ANY_NS::any] as the decoder and the encoder use it: it is empty
    or holds an [integer], a [string], a [list] or a [dict].  [dict] is a
    [std::map]: its entries are kept in ascending key order, keys unique.
    An [any] can hold a value of every other type as well (an [int], a
    [const char *], the [string_view] or [dict_view] of the view mode):
    the library looks at nothing but the type of such a value, and
    [any_other] stands for all of them. *)

Unset Elimination Schemes.
Inductive any : Type :=
| any_empty
| any_integer (value : Z)
| any_string (value : bytes)
| any_list (value : list any)
| any_dict (value : list (bytes * any))
| any_other.
Set Elimination Schemes.

(** [std::string::compare]: lexicographic on the bytes taken as unsigned. *)
Fixpoint compare (a b : bytes) : comparison :=
  match a, b with
  | [], [] => Eq
  | [], _ :: _ => Lt
  | _ :: _, [] => Gt
  | x :: a', y :: b' =>
      match Z.compare (code x) (code y) with
      | Eq => compare a' b'
      | c => c
      end
  end.

(** [std::map::emplace(k, v)]: the entry goes to its place in key order unless
    the key is present already.  The result is the map, the key of the entry
    the returned iterator points at, and whether an insertion took place. *)
Fixpoint emplace {V : Type} (k : bytes) (v : V) (m : list (bytes * V))
  : list (bytes * V) * (bytes * bool) :=
  match m with
  | [] => ([(k, v)], (k, true))
  | (k', v') :: m' =>
      match compare k k' with
      | Lt => ((k, v) :: m, (k, true))
      | Eq => (m, (k', false))
      | Gt => let '(m'', r) := emplace k v m' in ((k', v') :: m'', r)
      end
  end.

(** ** Outcomes of a decoding function *)

(** The exceptions of the library, one constructor per message of an
    [std::invalid_argument], and the two exceptions of the constructor of a
    [std::string]: [std::length_error] for a length beyond [max_size()],
    [std::bad_alloc] for one the allocator does not grant. *)
Inductive error : Type :=
| unexpected_end_of_string
| expected_e
| expected_colon
| expected_string_token
| duplicated_key (key : bytes)
| unexpected_type
| length_error
| bad_alloc.

Inductive outcome (A : Type) : Type :=
| Ok (a : A) (rest : bytes)   (* returned [a]; [begin] now points at [rest] *)
| Throw (e : error)           (* an exception left the function *)
| Undefined                   (* [begin] was dereferenced or moved past [end] *)
| AssertionFailed             (* an [assert] did not hold *)
| OutOfFuel.                  (* the model's recursion bound was reached *)

Arguments Ok {A} a rest.
Arguments Throw {A} e.
Arguments Undefined {A}.
Arguments AssertionFailed {A}.
Arguments OutOfFuel {A}.

Definition bind {A B : Type} (r : outcome A) (k : A -> bytes -> outcome B) : outcome B :=
  match r with
  | Ok a rest => k a rest
  | Throw e => Throw e
  | Undefined => Undefined
  | AssertionFailed => AssertionFailed
  | OutOfFuel => OutOfFuel
  end.

Notation "'do' ( a , r ) <- m ; k" := (bind m (fun a r => k))
  (at level 10, a name, r name, m at level 100, k at level 200).

(** ** detail::decode_int_real *)

(** The [for] loop: [value = value * 10 + *begin - '0'] while a digit is
    there.  It returns the value and the position it stopped at. *)
Fixpoint decode_int_digits (value : Z) (s : bytes) : Z * bytes :=
  match s with
  | [] => (value, [])
  | c :: s' =>
      if isdigit c
      then decode_int_digits (wrap64 (wrap64 (wrap64 (value * 10) + code c) - code "0")) s'
      else (value, s)
  end.

Definition decode_int_real (s : bytes) : outcome Z :=
  match s with
  | [] => Undefined
  | c :: s1 =>
      if negb (Ascii.eqb c "i") then AssertionFailed else
      match s1 with
      | [] => Undefined                         (* [*begin == '-'] at [end] *)
      | c1 :: s2 =>
          let '(positive, s3) := if Ascii.eqb c1 "-" then (false, s2) else (true, s1) in
          let '(value, s4) := decode_int_digits 0 s3 in
          match s4 with
          | [] => Throw unexpected_end_of_string
          | c4 :: s5 =>
              if negb (Ascii.eqb c4 "e") then Throw expected_e
              else Ok (if positive : bool then value else wrap64 (- value)) s5
          end
      end
  end.

Definition decode_int (s : bytes) : outcome Z := decode_int_real s.

(** ** detail::str_reader and detail::decode_str *)

(** The iterator category the reader is selected by: a forward (or better)
    iterator knows how far [end] is, an input iterator does not. *)
Inductive iterator_category : Type :=
| forward_iterator_tag
| input_iterator_tag.

Section Decoder.

(** [std::string::max_size()] of the standard library in use: a longer
    string is refused by the constructor with [std::length_error]. *)
Variable max_size : Z.

(** [str_reader<false>::call(..., std::forward_iterator_tag)] *)
Definition str_reader_forward (s : bytes) (len : Z) : outcome bytes :=
  if Z.of_nat (length s) <? to_ptrdiff len then Throw unexpected_end_of_string
  else if max_size <? len then Throw length_error
  else Ok (firstn (Z.to_nat len) s) (skipn (Z.to_nat len) s).

(** The loop of the input iterator version: one byte per step, each after
    a look at [begin == end]. *)
Fixpoint read_bytes (n : nat) (s : bytes) : outcome bytes :=
  match n with
  | O => Ok [] s
  | S n' =>
      match s with
      | [] => Throw unexpected_end_of_string
      | c :: s' => do (value, r) <- read_bytes n' s'; Ok (c :: value) r
      end
  end.

(** [str_reader<false>::call(..., std::input_iterator_tag)], with an
    allocator that grants every length up to [max_size].  The allocation
    that fails for want of memory is in [str_reader_input_alloc] below. *)
Definition str_reader_input (s : bytes) (len : Z) : outcome bytes :=
  if max_size <? len then Throw length_error
  else read_bytes (Z.to_nat len) s.

(** [str_reader<true>]: no string is built, the result is a view of the
    input.  With a [len] that is negative as a [ptrdiff_t] the test lets
    it through and [begin] is moved out of the range. *)
Definition str_reader_view (s : bytes) (len : Z) : outcome bytes :=
  if Z.of_nat (length s) <? to_ptrdiff len then Throw unexpected_end_of_string
  else if to_ptrdiff len <? 0 then Undefined
  else Ok (firstn (Z.to_nat len) s) (skipn (Z.to_nat len) s).

Definition str_reader (View : bool) (cat : iterator_category)
  (s : bytes) (len : Z) : outcome bytes :=
  if View then str_reader_view s len
  else match cat with
       | forward_iterator_tag => str_reader_forward s len
       | input_iterator_tag => str_reader_input s len
       end.

(** The [for] loop of [decode_str]: [len = len * 10 + *begin - '0']. *)
Fixpoint decode_str_digits (len : Z) (s : bytes) : Z * bytes :=
  match s with
  | [] => (len, [])
  | c :: s' =>
      if isdigit c
      then decode_str_digits (size_t (size_t (size_t (len * 10) + code c) - code "0")) s'
      else (len, s)
  end.

Definition decode_str (View : bool) (cat : iterator_category) (s : bytes)
  : outcome bytes :=
  match s with
  | [] => Undefined
  | c :: _ =>
      if negb (isdigit c) then AssertionFailed else
      let '(len, s1) := decode_str_digits 0 s in
      match s1 with
      | [] => Throw unexpected_end_of_string
      | c1 :: s2 =>
          if negb (Ascii.eqb c1 ":") then Throw expected_colon
          else str_reader View cat s2 len
      end
  end.

(** ** detail::decode_list and detail::decode_dict

    Both call [decode_data], which is only declared at that point of the
    header; here it is a variable of the section.  The [while] loops get
    a bound [n] on their number of rounds. *)

Section Containers.

Variable cat : iterator_category.
Variable decode_data : bytes -> outcome any.

Fixpoint decode_list_while (n : nat) (s : bytes) (value : list any)
  : outcome (list any) :=
  match s with
  | [] => Ok value []
  | c :: _ =>
      if Ascii.eqb c "e" then Ok value s else
      match n with
      | O => OutOfFuel
      | S n' =>
          do (v, r) <- decode_data s;
          decode_list_while n' r (value ++ [v])
      end
  end.

Definition decode_list (s : bytes) : outcome (list any) :=
  match s with
  | [] => Undefined
  | c :: s1 =>
      if negb (Ascii.eqb c "l") then AssertionFailed else
      do (value, s2) <- decode_list_while (length s1) s1 [];
      match s2 with
      | [] => Throw unexpected_end_of_string
      | _ :: s3 => Ok value s3
      end
  end.

Fixpoint decode_dict_while (n : nat) (s : bytes) (value : list (bytes * any))
  : outcome (list (bytes * any)) :=
  match s with
  | [] => Ok value []
  | c :: _ =>
      if Ascii.eqb c "e" then Ok value s else
      match n with
      | O => OutOfFuel
      | S n' =>
          if negb (isdigit c) then Throw expected_string_token else
          do (k, s1) <- decode_str false cat s;
          do (v, s2) <- decode_data s1;
          let '(value', (found, inserted)) := emplace k v value in
          if negb inserted then Throw (duplicated_key found)
          else decode_dict_while n' s2 value'
      end
  end.

Definition decode_dict (s : bytes) : outcome (list (bytes * any)) :=
  match s with
  | [] => Undefined
  | c :: s1 =>
      if negb (Ascii.eqb c "d") then AssertionFailed else
      do (value, s2) <- decode_dict_while (length s1) s1 [];
      match s2 with
      | [] => Throw unexpected_end_of_string
      | _ :: s3 => Ok value s3
      end
  end.

End Containers.

(** ** detail::decode_data<false>

    [fuel] bounds the depth of the recursion through [decode_list] and
    [decode_dict]. *)
Fixpoint decode_data (cat : iterator_category) (fuel : nat) (s : bytes)
  : outcome any :=
  match fuel with
  | O => OutOfFuel
  | S fuel' =>
      match s with
      | [] => Ok any_empty []
      | c :: _ =>
          if Ascii.eqb c "i" then
            do (n, r) <- decode_int s; Ok (any_integer n) r
          else if Ascii.eqb c "l" then
            do (l, r) <- decode_list (decode_data cat fuel') s; Ok (any_list l) r
          else if Ascii.eqb c "d" then
            do (d, r) <- decode_dict cat (decode_data cat fuel') s; Ok (any_dict d) r
          else if isdigit c then
            do (v, r) <- decode_str false cat s; Ok (any_string v) r
          else Throw unexpected_type
      end
  end.

(** [bencode::decode(begin, end)]: every opening tag takes a byte, so the
    nesting is never deeper than the input is long. *)
Definition decode_range (cat : iterator_category) (s : bytes) : outcome any :=
  decode_data cat (S (length s)) s.

(** [bencode::decode(const string_view &)] *)
Definition decode (s : bytes) : outcome any :=
  decode_range forward_iterator_tag s.

(** [bencode::decode(std::istream &, eof_behavior)], which reads through
    [std::istreambuf_iterator].  The [eofbit] it sets on the stream when
    the input is used up has no part in the result and is left out. *)
Definition decode_stream (s : bytes) : outcome any :=
  decode_range input_iterator_tag s.

End Decoder.

(** ** Encoding

    A [std::ostream] is modelled by the bytes written to it so far.  The
    stream is in its initial state: decimal output, no padding, "C" locale. *)

Definition ostream := bytes.

(** The character of a decimal digit. *)
Definition digit_char (d : Z) : ascii := ascii_of_N (Z.to_N (code "0" + d)).

Fixpoint decimal_digits (fuel : nat) (n : Z) : bytes :=
  match fuel with
  | O => []
  | S fuel' =>
      if n <? 10 then [digit_char n]
      else decimal_digits fuel' (n / 10) ++ [digit_char (n mod 10)]
  end.

(** The decimal digits of [n >= 0], as [operator<<] prints an unsigned
    number.  A number has no more decimal digits than binary ones. *)
Definition decimal (n : Z) : bytes := decimal_digits (S (Z.to_nat (Z.log2 n))) n.

(** [os << value] for a [long long]. *)
Definition put_integer (os : ostream) (value : Z) : ostream :=
  os ++ (if value <? 0 then "-"%char :: decimal (- value) else decimal value).

(** [os << n] for a [std::size_t]. *)
Definition put_size (os : ostream) (n : Z) : ostream := os ++ decimal n.

(** [encode(std::ostream &, integer)] *)
Definition encode_integer (os : ostream) (value : Z) : ostream :=
  put_integer (os ++ lit "i") value ++ lit "e".

(** [encode(std::ostream &, const string_view &)] *)
Definition encode_string_view (os : ostream) (value : bytes) : ostream :=
  put_size os (Z.of_nat (length value)) ++ lit ":" ++ value.

(** The overloads for [std::vector<T>] and [std::map<std::string, T>].
    [encode_T] is the overload of [encode] that overload resolution picks
    for the element type [T]; its result is the stream and the exception,
    if any, that interrupted the writing. *)
Section EncodeContainers.

Variable T : Type.
Variable encode_T : ostream -> T -> ostream * option error.

(** [list_encoder::add] for each element in turn. *)
Fixpoint list_encoder_add (os : ostream) (value : list T) : ostream * option error :=
  match value with
  | [] => (os, None)
  | i :: value' =>
      match encode_T os i with
      | (os', None) => list_encoder_add os' value'
      | raised => raised
      end
  end.

(** [list_encoder e(os)] puts ['l'], [e.end()] puts ['e']. *)
Definition encode_vector (os : ostream) (value : list T) : ostream * option error :=
  match list_encoder_add (os ++ lit "l") value with
  | (os', None) => (os' ++ lit "e", None)
  | raised => raised
  end.

(** [dict_encoder::add] for each entry in the order of the map. *)
Fixpoint dict_encoder_add (os : ostream) (value : list (bytes * T))
  : ostream * option error :=
  match value with
  | [] => (os, None)
  | (key, i) :: value' =>
      match encode_T (encode_string_view os key) i with
      | (os', None) => dict_encoder_add os' value'
      | raised => raised
      end
  end.

Definition encode_map (os : ostream) (value : list (bytes * T)) : ostream * option error :=
  match dict_encoder_add (os ++ lit "d") value with
  | (os', None) => (os' ++ lit "e", None)
  | raised => raised
  end.

End EncodeContainers.

Arguments list_encoder_add {T}.
Arguments encode_vector {T}.
Arguments dict_encoder_add {T}.
Arguments encode_map {T}.

(** [encode(std::ostream &, const any &)]: the dispatch on the type held.
    [BENCODE_HAS_STRING_VIEW] is not defined, so the four types below are
    the only ones it knows; every other type, like no value at all, ends in
    the last [else]. *)
Fixpoint encode_any (os : ostream) (value : any) {struct value} : ostream * option error :=
  match value with
  | any_integer n => (encode_integer os n, None)
  | any_string s => (encode_string_view os s, None)
  | any_list l => encode_vector (fun os i => encode_any os i) os l
  | any_dict d => encode_map (fun os i => encode_any os i) os d
  | any_empty | any_other => (os, Some unexpected_type)
  end.
(** [std::string encode(T &&)]: the bytes written to a fresh stream, or the
    exception. *)
Definition encode (value : any) : bytes + error :=
  match encode_any [] value with
  | (os, None) => inl os
  | (_, Some e) => inr e
  end.

(** The map after [emplace] of one more entry. *)
Definition with_entry {V : Type} (m : list (bytes * V)) (kv : bytes * V)
  : list (bytes * V) :=
  fst (emplace (fst kv) (snd kv) m).

(** A [std::map] filled entry by entry, in the order of the list. *)
Definition map_of_list {V : Type} (l : list (bytes * V)) : list (bytes * V) :=
  fold_left with_entry l [].

(** The call came to an end within the bounds of the model and without a
    failed assertion.  If it returned, what it left is a proper rest of the
    input [s] (the whole of it only where [s] is empty); if it read at the
    end position, the last byte of [s] is an ['i']. *)
Definition finishes {A : Type} (s : bytes) (o : outcome A) : Prop :=
  match o with
  | Ok _ r => exists p, s = p ++ r /\ (s <> [] -> p <> [])
  | Throw _ => True
  | Undefined => exists p, s = p ++ ["i"%char]
  | AssertionFailed | OutOfFuel => False
  end.

(** ** The grammar and the values it denotes

    What follows is not code of the library: it is the vocabulary the
    statements about the code are written in. *)

(** The number a run of decimal digits denotes, without any bound. *)
Definition number_from (acc : Z) (ds : bytes) : Z :=
  fold_left (fun v c => v * 10 + (code c - code "0")) ds acc.

Definition number (ds : bytes) : Z := number_from 0 ds.

(** The optional minus sign of an integer token. *)
Definition sign (neg : bool) : bytes := if neg then ["-"%char] else [].

(** The first byte of what is left is not a digit (or nothing is left). *)
Definition stops (s : bytes) : bool :=
  match s with
  | [] => true
  | c :: _ => negb (isdigit c)
  end.

(** The order of the keys of a [std::map]. *)
Definition key_lt (a b : bytes) : Prop := compare a b = Lt.

(** The input ends here or the terminator ['e'] comes: a loop over items
    ends. *)
Definition closes (s : bytes) : bool :=
  match s with
  | [] => true
  | c :: _ => Ascii.eqb c "e"
  end.

(** Keys in strictly ascending order of [compare]. *)
Fixpoint ascending (ks : list bytes) : bool :=
  match ks with
  | [] => true
  | k1 :: ks' =>
      match ks' with
      | [] => true
      | k2 :: _ => match compare k1 k2 with Lt => ascending ks' | _ => false end
      end
  end.

Section Grammar.

Variable max_size : Z.

(** [string := length ':' <length bytes>], for a string that a
    [std::string] can hold. *)
Inductive string_token : bytes -> bytes -> Prop :=
| string_token_intro (ds s : bytes) :
    ds <> [] ->
    forallb isdigit ds = true ->
    number ds = Z.of_nat (length s) ->
    Z.of_nat (length s) <= max_size ->
    string_token (ds ++ ":"%char :: s) s.

(** [token w v]: the bytes [w] are one value of the grammar and [v] is the
    value they denote.  Integers are those of a [long long], the keys of a
    dict are pairwise different. *)
Inductive token : bytes -> any -> Prop :=
| token_integer (neg : bool) (ds : bytes) (n : Z) :
    ds <> [] ->
    forallb isdigit ds = true ->
    n = (if neg then - number ds else number ds) ->
    - 2 ^ 63 <= n < 2 ^ 63 ->
    token ("i"%char :: sign neg ++ ds ++ ["e"%char]) (any_integer n)
| token_string (w s : bytes) :
    string_token w s ->
    token w (any_string s)
| token_list (ws : bytes) (vs : list any) :
    token_seq ws vs ->
    token ("l"%char :: ws ++ ["e"%char]) (any_list vs)
| token_dict (ws : bytes) (kvs : list (bytes * any)) :
    token_pairs ws kvs ->
    NoDup (map fst kvs) ->
    token ("d"%char :: ws ++ ["e"%char]) (any_dict (map_of_list kvs))
with token_seq : bytes -> list any -> Prop :=
| token_seq_nil : token_seq [] []
| token_seq_cons (w ws : bytes) (v : any) (vs : list any) :
    token w v ->
    token_seq ws vs ->
    token_seq (w ++ ws) (v :: vs)
with token_pairs : bytes -> list (bytes * any) -> Prop :=
| token_pairs_nil : token_pairs [] []
| token_pairs_cons (kw w ws k : bytes) (v : any) (kvs : list (bytes * any)) :
    string_token kw k ->
    token w v ->
    token_pairs ws kvs ->
    token_pairs (kw ++ w ++ ws) ((k, v) :: kvs).

(** A value in canonical form that the types of the library can hold: no
    empty [any] inside, integers in the range of [long long], strings no
    longer than [max_size], dict keys in ascending order. *)
Fixpoint canonical (v : any) : bool :=
  match v with
  | any_empty | any_other => false
  | any_integer n => (- 2 ^ 63 <=? n) && (n <? 2 ^ 63)
  | any_string s => Z.of_nat (length s) <=? max_size
  | any_list l => forallb canonical l
  | any_dict d =>
      ascending (map fst d)
      && forallb (fun kv => let '(k, i) := kv in
                            (Z.of_nat (length k) <=? max_size) && canonical i) d
  end.

End Grammar.

(** [encode] appends the bytes [w] to the stream, whatever it holds, and
    throws nothing. *)
Definition writes (v : any) (w : bytes) : Prop :=
  forall os, encode_any os v = (os ++ w, None).

Scheme token_mut := Minimality for token Sort Prop
  with token_seq_mut := Minimality for token_seq Sort Prop
  with token_pairs_mut := Minimality for token_pairs Sort Prop.

Combined Scheme token_mutind from token_mut, token_seq_mut, token_pairs_mut.

(** Induction on a value, with the hypothesis for every element of a list
    and every entry of a dict. *)
Section AnyInd.

Variable P : any -> Prop.
Hypothesis P_empty : P any_empty.
Hypothesis P_integer : forall n, P (any_integer n).
Hypothesis P_string : forall s, P (any_string s).
Hypothesis P_list : forall l, Forall P l -> P (any_list l).
Hypothesis P_dict : forall d, Forall (fun kv => P (snd kv)) d -> P (any_dict d).
Hypothesis P_other : P any_other.

Fixpoint any_ind (v : any) : P v :=
  match v with
  | any_empty => P_empty
  | any_integer n => P_integer n
  | any_string s => P_string s
  | any_list l =>
      P_list l ((fix all (l : list any) : Forall P l :=
                   match l with
                   | [] => Forall_nil P
                   | x :: l' => Forall_cons x (any_ind x) (all l')
                   end) l)
  | any_dict d =>
      P_dict d ((fix all (d : list (bytes * any)) : Forall (fun kv => P (snd kv)) d :=
                   match d with
                   | [] => Forall_nil _
                   | (k, x) :: d' => Forall_cons (k, x) (any_ind x) (all d')
                   end) d)
  | any_other => P_other
  end.

End AnyInd.

(** The [max_size()] of [std::string] in libstdc++ on a 64-bit target, for
    the runs on concrete inputs. *)
Definition example_max_size : Z := 2 ^ 62 - 1.

(** What the allocator grants on the machine of the runs on concrete
    inputs: a terabyte. *)
Definition example_memory : Z := 2 ^ 40.

(** Derivations for concrete tokens. *)
Ltac string_token_of ds s :=
  apply (string_token_intro _ ds s);
  [discriminate | reflexivity | reflexivity | vm_compute; discriminate].

Ltac integer_token_of neg ds n :=
  apply (token_integer _ neg ds n);
  [discriminate | reflexivity | reflexivity
  | split; vm_compute; first [discriminate | reflexivity]].

(** ** The decoder with an allocator

    [std::string value(len, 0)] allocates [len] bytes and throws
    [std::bad_alloc] when the allocator does not grant them.  The reader
    for input iterators builds this string before it has looked at [end]
    once, with the length the input declares, be it far more than the
    input holds; the reader for forward iterators has compared the length
    with the distance to [end] by then.  [memory] is the largest length the
    allocator grants.  The functions of the decoder follow once more, with
    this reader; without the suffix they are the decoder for an allocator
    that grants whatever [max_size] allows. *)

Section Allocator.

Variable max_size : Z.
Variable memory : Z.

(** [str_reader<false>::call(..., std::input_iterator_tag)] *)
Definition str_reader_input_alloc (s : bytes) (len : Z) : outcome bytes :=
  if max_size <? len then Throw length_error
  else if memory <? len then Throw bad_alloc
  else read_bytes (Z.to_nat len) s.

Definition str_reader_alloc (View : bool) (cat : iterator_category)
  (s : bytes) (len : Z) : outcome bytes :=
  if View then str_reader_view s len
  else match cat with
       | forward_iterator_tag => str_reader_forward max_size s len
       | input_iterator_tag => str_reader_input_alloc s len
       end.

Definition decode_str_alloc (View : bool) (cat : iterator_category) (s : bytes)
  : outcome bytes :=
  match s with
  | [] => Undefined
  | c :: _ =>
      if negb (isdigit c) then AssertionFailed else
      let '(len, s1) := decode_str_digits 0 s in
      match s1 with
      | [] => Throw unexpected_end_of_string
      | c1 :: s2 =>
          if negb (Ascii.eqb c1 ":") then Throw expected_colon
          else str_reader_alloc View cat s2 len
      end
  end.

Section ContainersAlloc.

Variable cat : iterator_category.
Variable decode_data : bytes -> outcome any.

Fixpoint decode_dict_while_alloc (n : nat) (s : bytes) (value : list (bytes * any))
  : outcome (list (bytes * any)) :=
  match s with
  | [] => Ok value []
  | c :: _ =>
      if Ascii.eqb c "e" then Ok value s else
      match n with
      | O => OutOfFuel
      | S n' =>
          if negb (isdigit c) then Throw expected_string_token else
          do (k, s1) <- decode_str_alloc false cat s;
          do (v, s2) <- decode_data s1;
          let '(value', (found, inserted)) := emplace k v value in
          if negb inserted then Throw (duplicated_key found)
          else decode_dict_while_alloc n' s2 value'
      end
  end.

Definition decode_dict_alloc (s : bytes) : outcome (list (bytes * any)) :=
  match s with
  | [] => Undefined
  | c :: s1 =>
      if negb (Ascii.eqb c "d") then AssertionFailed else
      do (value, s2) <- decode_dict_while_alloc (length s1) s1 [];
      match s2 with
      | [] => Throw unexpected_end_of_string
      | _ :: s3 => Ok value s3
      end
  end.

End ContainersAlloc.

Fixpoint decode_data_alloc (cat : iterator_category) (fuel : nat) (s : bytes)
  : outcome any :=
  match fuel with
  | O => OutOfFuel
  | S fuel' =>
      match s with
      | [] => Ok any_empty []
      | c :: _ =>
          if Ascii.eqb c "i" then
            do (n, r) <- decode_int s; Ok (any_integer n) r
          else if Ascii.eqb c "l" then
            do (l, r) <- decode_list (decode_data_alloc cat fuel') s; Ok (any_list l) r
          else if Ascii.eqb c "d" then
            do (d, r) <- decode_dict_alloc cat (decode_data_alloc cat fuel') s;
            Ok (any_dict d) r
          else if isdigit c then
            do (v, r) <- decode_str_alloc false cat s; Ok (any_string v) r
          else Throw unexpected_type
      end
  end.

(** [bencode::decode(begin, end)] *)
Definition decode_range_alloc (cat : iterator_category) (s : bytes) : outcome any :=
  decode_data_alloc cat (S (length s)) s.

End Allocator.

(** The outcome [oa] with the allocator is the outcome [o] without, or it
    is the [std::bad_alloc] of the reader for input iterators, where the
    allocator grants less than [max_size]. *)
Definition same_or_bad_alloc {A : Type} (max_size memory : Z)
  (cat : iterator_category) (oa o : outcome A) : Prop :=
  oa = o
  \/ (cat = input_iterator_tag /\ memory < max_size /\ oa = Throw bad_alloc).

(** ** More of the interface *)

(** [enum eof_behavior] *)
Inductive eof_behavior : Type :=
| check_eof
| no_check_eof.

(** [bencode::decode(std::istream &, eof_behavior)] with the state of the
    stream: next to the outcome, whether the call has set [eofbit].  The
    iterator reads from the buffer of the stream, so that what is left
    behind the value is what the stream holds afterwards; an exception
    leaves the function before the bit is looked at. *)
Definition decode_istream (max_size : Z) (s : bytes) (e : eof_behavior)
  : outcome any * bool :=
  match decode_range max_size input_iterator_tag s with
  | Ok result rest =>
      (Ok result rest,
       match e, rest with
       | check_eof, [] => true
       | _, _ => false
       end)
  | other => (other, false)
  end.

(** [list_encoder::list_encoder(std::ostream &)] and [list_encoder::end()] *)
Definition list_encoder (os : ostream) : ostream := os ++ lit "l".
Definition list_encoder_end (os : ostream) : ostream := os ++ lit "e".

(** [dict_encoder::dict_encoder(std::ostream &)] and [dict_encoder::end()] *)
Definition dict_encoder (os : ostream) : ostream := os ++ lit "d".
Definition dict_encoder_end (os : ostream) : ostream := os ++ lit "e".

(** [encode_list(os, t...)] for arguments that are [any] values:
    [detail::encode_list_items] adds them one after the other, then the
    list is ended.  An exception leaves the function before [end()]. *)
Definition encode_list (os : ostream) (t : list any) : ostream * option error :=
  match list_encoder_add (fun os i => encode_any os i) (list_encoder os) t with
  | (os', None) => (list_encoder_end os', None)
  | raised => raised
  end.

(** [encode_dict(os, key, value, ...)] for values that are [any] values, in
    the order of the arguments. *)
Definition encode_dict (os : ostream) (t : list (bytes * any)) : ostream * option error :=
  match dict_encoder_add (fun os i => encode_any os i) (dict_encoder os) t with
  | (os', None) => (dict_encoder_end os', None)
  | raised => raised
  end.

(** Every [any] inside the value holds a value of one of the four types of
    the library. *)
Fixpoint holds_values (v : any) : bool :=
  match v with
  | any_empty | any_other => false
  | any_integer _ | any_string _ => true
  | any_list l => forallb holds_values l
  | any_dict d => forallb (fun kv => let '(_, i) := kv in holds_values i) d
  end.

(** Two outcomes are the same, or the first is the exception "unexpected
    end of string" where the second is an exception of the constructor of
    the string. *)
Definition agree {A : Type} (o1 o2 : outcome A) : Prop :=
  o1 = o2
  \/ (o1 = Throw unexpected_end_of_string
      /\ (o2 = Throw length_error \/ o2 = Throw bad_alloc)).

(** The input ended too early for the decoder: it threw "unexpected end of
    string" or read at the end position. *)
Definition truncated {A : Type} (o : outcome A) : Prop :=
  o = Throw unexpected_end_of_string \/ o = Undefined.

(** * Properties *)

(** ** Bytes and digits *)

Lemma code_inj (a b : ascii) : code a = code b -> a = b.
Proof.
  unfold code. intros H. apply N2Z.inj in H.
  rewrite <- (ascii_N_embedding a), <- (ascii_N_embedding b). now rewrite H.
Qed.

Lemma isdigit_code (c : ascii) : isdigit c = true <-> 48 <= code c <= 57.
Proof.
  unfold isdigit. change (code "0") with 48. change (code "9") with 57.
  rewrite andb_true_iff, !Z.leb_le. tauto.
Qed.

(** A digit is none of the bytes the grammar uses as a tag or a separator. *)
Lemma digit_not (c x : ascii) :
  isdigit c = true -> isdigit x = false -> Ascii.eqb c x = false.
Proof.
  intros Hc Hx. destruct (Ascii.eqb c x) eqn:E; [|reflexivity].
  apply Ascii.eqb_eq in E. subst. congruence.
Qed.

Lemma digit_char_code (d : Z) : 0 <= d <= 9 -> code (digit_char d) = 48 + d.
Proof.
  intros H. unfold digit_char, code. change (Z.of_N (N_of_ascii "0")) with 48.
  rewrite N_ascii_embedding by lia. lia.
Qed.

Lemma digit_char_isdigit (d : Z) : 0 <= d <= 9 -> isdigit (digit_char d) = true.
Proof.
  intros H. apply isdigit_code. rewrite digit_char_code by assumption. lia.
Qed.

(** ** Machine arithmetic *)

Lemma wrap64_small (z : Z) : - 2 ^ 63 <= z < 2 ^ 63 -> wrap64 z = z.
Proof.
  intros H. unfold wrap64. rewrite Z.mod_small by lia. lia.
Qed.

Lemma wrap64_range (z : Z) : - 2 ^ 63 <= wrap64 z < 2 ^ 63.
Proof.
  unfold wrap64. pose proof (Z.mod_pos_bound (z + 2 ^ 63) (2 ^ 64) ltac:(lia)). lia.
Qed.

Lemma wrap64_congr (a b : Z) : (a - b) mod 2 ^ 64 = 0 -> wrap64 a = wrap64 b.
Proof.
  intros H. unfold wrap64. f_equal.
  apply Z.mod_divide in H; [|lia]. destruct H as [q Hq].
  replace (a + 2 ^ 63) with (b + 2 ^ 63 + q * 2 ^ 64) by lia.
  apply Z.mod_add. lia.
Qed.

Lemma wrap64_diff (a : Z) : (wrap64 a - a) mod 2 ^ 64 = 0.
Proof.
  unfold wrap64.
  pose proof (Z.div_mod (a + 2 ^ 63) (2 ^ 64) ltac:(lia)) as H.
  replace ((a + 2 ^ 63) mod 2 ^ 64 - 2 ^ 63 - a)
    with (- ((a + 2 ^ 63) / 2 ^ 64) * 2 ^ 64) by lia.
  apply Z.mod_mul. lia.
Qed.

(** One round of the loop of [decode_int_real] is one round in Z, wrapped. *)
Lemma wrap64_step (v c : Z) :
  wrap64 (wrap64 (wrap64 (wrap64 v * 10) + c) - 48) = wrap64 (v * 10 + (c - 48)).
Proof.
  apply wrap64_congr.
  pose proof (wrap64_diff v) as H1.
  pose proof (wrap64_diff (wrap64 v * 10)) as H2.
  pose proof (wrap64_diff (wrap64 (wrap64 v * 10) + c)) as H3.
  apply Z.mod_divide in H1, H2, H3; try lia.
  destruct H1 as [q1 H1], H2 as [q2 H2], H3 as [q3 H3].
  apply Z.mod_divide; [lia|]. exists (q3 + q2 + 10 * q1). lia.
Qed.

Lemma wrap64_opp (v : Z) : wrap64 (- wrap64 v) = wrap64 (- v).
Proof.
  apply wrap64_congr. pose proof (wrap64_diff v) as H.
  apply Z.mod_divide in H; [|lia]. destruct H as [q H].
  apply Z.mod_divide; [lia|]. exists (- q). lia.
Qed.

Lemma size_t_small (z : Z) : 0 <= z < 2 ^ 64 -> size_t z = z.
Proof. intros H. unfold size_t. now apply Z.mod_small. Qed.

Lemma size_t_step (v c : Z) :
  size_t (size_t (size_t (size_t v * 10) + c) - 48) = size_t (v * 10 + (c - 48)).
Proof.
  unfold size_t.
  rewrite Zminus_mod_idemp_l, <- Z.add_sub_assoc, Zplus_mod_idemp_l.
  rewrite <- Zplus_mod_idemp_l, Zmult_mod_idemp_l, Zplus_mod_idemp_l.
  reflexivity.
Qed.

(** ** Runs of digits *)

Lemma number_from_app (acc : Z) (a b : bytes) :
  number_from acc (a ++ b) = number_from (number_from acc a) b.
Proof. unfold number_from. apply fold_left_app. Qed.

Lemma decode_int_digits_run (ds s : bytes) (v : Z) :
  forallb isdigit ds = true -> stops s = true ->
  decode_int_digits (wrap64 v) (ds ++ s) = (wrap64 (number_from v ds), s).
Proof.
  revert v. induction ds as [|c ds IH]; intros v Hds Hs;
    cbn [decode_int_digits app forallb stops] in *.
  - destruct s as [|c s]; [reflexivity|].
    cbn [decode_int_digits]. apply negb_true_iff in Hs. now rewrite Hs.
  - apply andb_true_iff in Hds as [Hc Hds]. rewrite Hc.
    change (code "0") with 48. rewrite wrap64_step. now apply IH.
Qed.

Lemma decode_str_digits_run (ds s : bytes) (v : Z) :
  forallb isdigit ds = true -> stops s = true ->
  decode_str_digits (size_t v) (ds ++ s) = (size_t (number_from v ds), s).
Proof.
  revert v. induction ds as [|c ds IH]; intros v Hds Hs;
    cbn [decode_str_digits app forallb stops] in *.
  - destruct s as [|c s]; [reflexivity|].
    cbn [decode_str_digits]. apply negb_true_iff in Hs. now rewrite Hs.
  - apply andb_true_iff in Hds as [Hc Hds]. rewrite Hc.
    change (code "0") with 48. rewrite size_t_step. now apply IH.
Qed.

Lemma number_snoc (ds : bytes) (c : ascii) :
  number (ds ++ [c]) = number ds * 10 + (code c - 48).
Proof. unfold number. now rewrite number_from_app. Qed.

Lemma number_nonneg (ds : bytes) (acc : Z) :
  forallb isdigit ds = true -> 0 <= acc -> 0 <= number_from acc ds.
Proof.
  revert acc. induction ds as [|c ds IH]; intros acc Hds Hacc; cbn in *; [assumption|].
  apply andb_true_iff in Hds as [Hc Hds]. apply isdigit_code in Hc.
  apply IH; [assumption|]. change (code "0") with 48. lia.
Qed.

(** ** The integer token *)

(** What [decode_int_real] does with an optional sign, a run of digits,
    possibly empty, and one more byte that is not a digit. *)
Lemma decode_int_real_run (neg : bool) (ds : bytes) (x : ascii) (t : bytes) :
  forallb isdigit ds = true ->
  isdigit x = false ->
  neg = true \/ ds <> [] \/ Ascii.eqb x "-" = false ->
  decode_int_real ("i"%char :: sign neg ++ ds ++ x :: t) =
    if Ascii.eqb x "e"
    then Ok (wrap64 (if neg then - number ds else number ds)) t
    else Throw expected_e.
Proof.
  intros Hds Hx Hfirst.
  assert (Hrun : decode_int_digits 0 (ds ++ x :: t) = (wrap64 (number ds), x :: t)).
  { change 0 with (wrap64 0) at 1. apply decode_int_digits_run; [assumption|].
    cbn [stops]. now rewrite Hx. }
  unfold decode_int_real. cbn [negb Ascii.eqb Bool.eqb andb].
  destruct neg; cbn [sign app].
  - cbn [Ascii.eqb Bool.eqb andb]. rewrite Hrun.
    destruct (Ascii.eqb x "e"); cbn [negb]; [|reflexivity].
    now rewrite wrap64_opp.
  - assert (Hhead : exists c1 s2, ds ++ x :: t = c1 :: s2 /\ Ascii.eqb c1 "-" = false).
    { destruct ds as [|d ds'].
      - exists x, t. split; [reflexivity|].
        destruct Hfirst as [H|[H|H]]; [discriminate|contradiction|assumption].
      - exists d, (ds' ++ x :: t). split; [reflexivity|].
        cbn [forallb] in Hds. apply andb_true_iff in Hds as [Hd _].
        now apply digit_not. }
    destruct Hhead as (c1 & s2 & Heq & Hc1).
    rewrite Heq at 1. rewrite Hc1, Hrun.
    destruct (Ascii.eqb x "e"); reflexivity.
Qed.

(** The input ends after the sign or the digits. *)
Lemma decode_int_real_end (neg : bool) (ds : bytes) :
  forallb isdigit ds = true ->
  neg = true \/ ds <> [] ->
  decode_int_real ("i"%char :: sign neg ++ ds) = Throw unexpected_end_of_string.
Proof.
  intros Hds Hfirst.
  assert (Hrun : decode_int_digits 0 ds = (wrap64 (number ds), [])).
  { change 0 with (wrap64 0) at 1. rewrite <- (app_nil_r ds) at 1.
    now apply decode_int_digits_run. }
  unfold decode_int_real. cbn [negb Ascii.eqb Bool.eqb andb].
  destruct neg; cbn [sign app].
  - cbn [Ascii.eqb Bool.eqb andb]. now rewrite Hrun.
  - destruct ds as [|d ds']; [now destruct Hfirst|].
    cbn [forallb] in Hds. apply andb_true_iff in Hds as [Hd _].
    rewrite (digit_not d "-" Hd eq_refl). now rewrite Hrun.
Qed.

(** ** The string token *)

Section StringReader.

Variable max_size : Z.
Hypothesis max_size_ptrdiff : max_size < 2 ^ 63.

Lemma read_bytes_spec (n : nat) (s : bytes) :
  read_bytes n s =
    if (length s <? n)%nat then Throw unexpected_end_of_string
    else Ok (firstn n s) (skipn n s).
Proof.
  revert s. induction n as [|n IH]; intros s; cbn [read_bytes].
  - now destruct s.
  - destruct s as [|c s]; [reflexivity|]. rewrite IH.
    cbn [length firstn skipn]. change (S (length s) <? S n)%nat with (length s <? n)%nat.
    now destruct (length s <? n)%nat.
Qed.

(** The three readers agree on a length a string can have: they fail
    exactly when fewer bytes are left than were asked for. *)
Lemma str_reader_spec (View : bool) (cat : iterator_category) (s : bytes) (n : nat) :
  Z.of_nat n <= max_size ->
  str_reader max_size View cat s (Z.of_nat n) =
    if (length s <? n)%nat then Throw unexpected_end_of_string
    else Ok (firstn n s) (skipn n s).
Proof.
  intros Hn.
  assert (Hcast : to_ptrdiff (Z.of_nat n) = Z.of_nat n).
  { apply wrap64_small. lia. }
  unfold str_reader, str_reader_view, str_reader_forward, str_reader_input.
  rewrite Hcast, Nat2Z.id.
  destruct (Nat.ltb_spec (length s) n) as [Hlt|Hge].
  - destruct (Z.ltb_spec (Z.of_nat (length s)) (Z.of_nat n)); [|lia].
    destruct View; [reflexivity|]. destruct cat; [reflexivity|].
    destruct (Z.ltb_spec max_size (Z.of_nat n)); [lia|].
    rewrite read_bytes_spec. destruct (Nat.ltb_spec (length s) n); [reflexivity|lia].
  - destruct (Z.ltb_spec (Z.of_nat (length s)) (Z.of_nat n)); [lia|].
    destruct (Z.ltb_spec (Z.of_nat n) 0); [lia|].
    destruct (Z.ltb_spec max_size (Z.of_nat n)); [lia|].
    destruct View; [reflexivity|]. destruct cat; [reflexivity|].
    rewrite read_bytes_spec. destruct (Nat.ltb_spec (length s) n); [lia|reflexivity].
Qed.

(** [decode_str] on a run of digits and a colon hands the number, reduced
    to a [size_t], to the reader. *)
Lemma decode_str_run (View : bool) (cat : iterator_category) (ds s : bytes) :
  ds <> [] -> forallb isdigit ds = true ->
  decode_str max_size View cat (ds ++ ":"%char :: s) =
    str_reader max_size View cat s (size_t (number ds)).
Proof.
  intros Hne Hds.
  assert (Hrun : decode_str_digits 0 (ds ++ ":"%char :: s)
                 = (size_t (number ds), ":"%char :: s)).
  { change 0 with (size_t 0) at 1. now apply decode_str_digits_run. }
  unfold decode_str. rewrite Hrun.
  destruct ds as [|d ds']; [contradiction|].
  cbn [forallb] in Hds. apply andb_true_iff in Hds as [Hd _].
  cbn [app]. rewrite Hd. reflexivity.
Qed.

Lemma decode_str_token (cat : iterator_category) (w s t : bytes) :
  string_token max_size w s ->
  decode_str max_size false cat (w ++ t) = Ok s t.
Proof.
  intros [ds s' Hne Hds Hnum Hlen].
  rewrite <- app_assoc. cbn [app]. rewrite decode_str_run by assumption.
  rewrite Hnum, size_t_small by lia.
  rewrite str_reader_spec by assumption.
  rewrite length_app.
  destruct (Nat.ltb_spec (length s' + length t) (length s')); [lia|].
  rewrite firstn_app, Nat.sub_diag, firstn_all, firstn_O, app_nil_r.
  rewrite skipn_app, Nat.sub_diag, skipn_all. reflexivity.
Qed.

End StringReader.

(** ** Decimal output *)

Lemma decimal_digits_isdigit (fuel : nat) (n : Z) :
  0 <= n -> forallb isdigit (decimal_digits fuel n) = true.
Proof.
  revert n. induction fuel as [|fuel IH]; intros n Hn; cbn [decimal_digits]; [reflexivity|].
  destruct (Z.ltb_spec n 10).
  - cbn [forallb]. rewrite digit_char_isdigit by lia. reflexivity.
  - rewrite forallb_app, IH by (apply Z.div_pos; lia).
    cbn [forallb]. rewrite digit_char_isdigit; [reflexivity|].
    pose proof (Z.mod_pos_bound n 10). lia.
Qed.

Lemma decimal_digits_number (fuel : nat) (n : Z) :
  0 <= n < 10 ^ Z.of_nat fuel -> number (decimal_digits fuel n) = n.
Proof.
  revert n. induction fuel as [|fuel IH]; intros n Hn; cbn [decimal_digits].
  - change (10 ^ Z.of_nat 0) with 1 in Hn. cbn. lia.
  - rewrite Nat2Z.inj_succ, Z.pow_succ_r in Hn by lia.
    destruct (Z.ltb_spec n 10).
    + cbn. rewrite digit_char_code by lia. change (code "0") with 48. lia.
    + rewrite number_snoc, IH.
      * rewrite digit_char_code by (pose proof (Z.mod_pos_bound n 10); lia).
        pose proof (Z.div_mod n 10). lia.
      * split; [apply Z.div_pos; lia|]. apply Z.div_lt_upper_bound; lia.
Qed.

(** The first digit is not a zero, unless the number is zero. *)
Lemma decimal_digits_leading (fuel : nat) (n : Z) :
  0 < n < 10 ^ Z.of_nat fuel ->
  exists c r, decimal_digits fuel n = c :: r /\ c <> "0"%char.
Proof.
  revert n. induction fuel as [|fuel IH]; intros n Hn.
  - change (10 ^ Z.of_nat 0) with 1 in Hn. lia.
  - rewrite Nat2Z.inj_succ, Z.pow_succ_r in Hn by lia.
    cbn [decimal_digits]. destruct (Z.ltb_spec n 10).
    + exists (digit_char n), []. split; [reflexivity|]. intros E.
      apply (f_equal code) in E. rewrite digit_char_code in E by lia.
      change (code "0") with 48 in E. lia.
    + destruct (IH (n / 10)) as (c & r & E & Hc).
      * split; [|apply Z.div_lt_upper_bound; lia].
        apply Z.div_str_pos. lia.
      * exists c, (r ++ [digit_char (n mod 10)]). now rewrite E.
Qed.

Lemma decimal_fuel (n : Z) : 0 <= n -> n < 10 ^ Z.of_nat (S (Z.to_nat (Z.log2 n))).
Proof.
  intros Hn. rewrite Nat2Z.inj_succ, Z2Nat.id by apply Z.log2_nonneg.
  destruct (Z.eq_dec n 0) as [->|Hnz]; [reflexivity|].
  pose proof (Z.log2_spec n ltac:(lia)) as [_ Hlt].
  pose proof (Z.log2_nonneg n).
  apply Z.lt_le_trans with (1 := Hlt).
  apply Z.pow_le_mono_l. lia.
Qed.

Lemma decimal_isdigit (n : Z) : 0 <= n -> forallb isdigit (decimal n) = true.
Proof. apply decimal_digits_isdigit. Qed.

Lemma decimal_number (n : Z) : 0 <= n -> number (decimal n) = n.
Proof.
  intros Hn. apply decimal_digits_number. split; [assumption|]. now apply decimal_fuel.
Qed.

Lemma decimal_nonempty (n : Z) : decimal n <> [].
Proof.
  unfold decimal. cbn [decimal_digits]. destruct (n <? 10); [discriminate|].
  now destruct (decimal_digits _ _).
Qed.

Lemma decimal_leading (n : Z) :
  0 < n -> exists c r, decimal n = c :: r /\ c <> "0"%char.
Proof.
  intros Hn. apply decimal_digits_leading. split; [assumption|]. apply decimal_fuel. lia.
Qed.

(** The encoders append to the stream. *)
Lemma encode_integer_app (os : ostream) (n : Z) :
  encode_integer os n = os ++ encode_integer [] n.
Proof.
  unfold encode_integer, put_integer. cbn [app]. now rewrite <- !app_assoc.
Qed.

Lemma encode_string_view_app (os : ostream) (s : bytes) :
  encode_string_view os s = os ++ encode_string_view [] s.
Proof.
  unfold encode_string_view, put_size. cbn [app]. now rewrite <- !app_assoc.
Qed.

(** ** The order of the keys *)

Lemma compare_eq (a b : bytes) : compare a b = Eq -> a = b.
Proof.
  revert b. induction a as [|x a IH]; intros [|y b] H; cbn in H; try discriminate.
  - reflexivity.
  - destruct (Z.compare_spec (code x) (code y)) as [E| |]; try discriminate.
    apply code_inj in E. subst. f_equal. now apply IH.
Qed.

Lemma compare_refl (a : bytes) : compare a a = Eq.
Proof.
  induction a as [|x a IH]; cbn; [reflexivity|]. now rewrite Z.compare_refl.
Qed.

Lemma compare_antisym (a b : bytes) : compare b a = CompOpp (compare a b).
Proof.
  revert b. induction a as [|x a IH]; intros [|y b]; cbn; try reflexivity.
  rewrite (Z.compare_antisym (code x) (code y)).
  destruct (code x ?= code y); cbn; auto.
Qed.

Lemma key_lt_trans (a b c : bytes) : key_lt a b -> key_lt b c -> key_lt a c.
Proof.
  unfold key_lt. revert b c.
  induction a as [|x a IH]; intros [|y b] [|z c] H1 H2; cbn in *; try discriminate;
    try reflexivity.
  destruct (Z.compare_spec (code x) (code y)) as [E1|L1|G1]; try discriminate;
    destruct (Z.compare_spec (code y) (code z)) as [E2|L2|G2]; try discriminate.
  - rewrite E1, E2, Z.compare_refl. eauto.
  - rewrite E1. now apply Z.compare_lt_iff in L2 as ->.
  - rewrite <- E2. now apply Z.compare_lt_iff in L1 as ->.
  - assert (L : code x < code z) by lia. now apply Z.compare_lt_iff in L as ->.
Qed.

Lemma key_lt_irrefl (a : bytes) : ~ key_lt a a.
Proof. unfold key_lt. now rewrite compare_refl. Qed.

Lemma ascending_sorted (ks : list bytes) :
  ascending ks = true <-> StronglySorted key_lt ks.
Proof.
  split.
  - intros H. apply Sorted_StronglySorted; [exact key_lt_trans|].
    induction ks as [|k1 ks IH]; [constructor|].
    cbn [ascending] in H. destruct ks as [|k2 ks]; [repeat constructor|].
    destruct (compare k1 k2) eqn:E; try discriminate.
    constructor; [now apply IH|]. now constructor.
  - intros H. apply StronglySorted_Sorted in H.
    induction H as [|k1 ks Hs IH Hhd]; [reflexivity|].
    cbn [ascending]. destruct ks as [|k2 ks]; [reflexivity|].
    inversion Hhd as [|? ? Hlt]; subst. unfold key_lt in Hlt. now rewrite Hlt.
Qed.

(** ** [std::map::emplace] *)

Section Emplace.

Variable V : Type.
Implicit Types (m : list (bytes * V)) (k : bytes) (v : V).

(** The iterator that comes back points at an entry with the key asked
    for. *)
Lemma emplace_found k v m : fst (snd (emplace k v m)) = k.
Proof.
  induction m as [|[k' v'] m IH]; cbn [emplace]; [reflexivity|].
  destruct (compare k k') eqn:E.
  - cbn. symmetry. now apply compare_eq.
  - reflexivity.
  - destruct (emplace k v m) as [m'' r]. exact IH.
Qed.

(** A key that is absent is inserted. *)
Lemma emplace_absent k v m :
  ~ In k (map fst m) ->
  exists m', emplace k v m = (m', (k, true))
             /\ forall x, In x (map fst m') <-> x = k \/ In x (map fst m).
Proof.
  induction m as [|[k' v'] m IH]; intros Hk; cbn [emplace].
  - exists [(k, v)]. split; [reflexivity|]. intros x. cbn. intuition.
  - destruct (compare k k') eqn:E.
    + apply compare_eq in E. subst. exfalso. apply Hk. now left.
    + exists ((k, v) :: (k', v') :: m). split; [reflexivity|].
      intros x. cbn. intuition.
    + destruct IH as (m' & Hm' & Hkeys); [intros H; apply Hk; now right|].
      rewrite Hm'. exists ((k', v') :: m'). split; [reflexivity|].
      intros x. cbn. rewrite Hkeys. cbn in Hk. intuition.
Qed.

(** A key greater than all keys of the map goes to the end. *)
Lemma emplace_last k v m :
  Forall (fun k' => key_lt k' k) (map fst m) ->
  emplace k v m = (m ++ [(k, v)], (k, true)).
Proof.
  induction m as [|[k' v'] m IH]; intros H; cbn [emplace]; [reflexivity|].
  cbn [map fst] in H. inversion H as [|? ? Hlt Hrest]; subst.
  rewrite (compare_antisym k' k), Hlt. cbn [CompOpp].
  now rewrite IH.
Qed.

(** The map stays in ascending key order. *)
Lemma emplace_sorted k v m :
  StronglySorted key_lt (map fst m) ->
  StronglySorted key_lt (map fst (fst (emplace k v m))).
Proof.
  induction m as [|[k' v'] m IH]; intros Hs; cbn [emplace].
  - cbn. repeat constructor.
  - cbn [map fst] in Hs. inversion Hs as [|? ? Hs' Hall]; subst.
    destruct (compare k k') eqn:E.
    + exact Hs.
    + cbn [fst map]. constructor; [exact Hs|].
      constructor; [exact E|].
      eapply Forall_impl; [|exact Hall]. intros x Hx. now apply key_lt_trans with k'.
    + specialize (IH Hs').
      assert (Hkeys : forall x, In x (map fst (fst (emplace k v m)))
                                -> x = k \/ In x (map fst m)).
      { clear. induction m as [|[k2 v2] m IH]; cbn [emplace]; intros x.
        - cbn. intuition.
        - destruct (compare k k2); cbn [fst map]; [now right|cbn; intuition|].
          destruct (emplace k v m) as [m'' r]. cbn [fst map] in *.
          cbn. intros [H|H]; [now right; left|]. apply IH in H. intuition. }
      destruct (emplace k v m) as [m'' r]. cbn [fst map] in *.
      constructor; [exact IH|]. apply Forall_forall. intros x Hx.
      apply Hkeys in Hx as [->|Hx].
      * unfold key_lt. now rewrite (compare_antisym k k'), E.
      * rewrite Forall_forall in Hall. now apply Hall.
Qed.

(** A key that is present already is found, and the map is left as it
    was. *)
Lemma emplace_present k v m :
  StronglySorted key_lt (map fst m) ->
  In k (map fst m) ->
  emplace k v m = (m, (k, false)).
Proof.
  induction m as [|[k' v'] m IH]; intros Hs Hin; [contradiction|].
  cbn [map fst] in Hs. inversion Hs as [|? ? Hs' Hall]; subst.
  cbn [emplace]. destruct (compare k k') eqn:E.
  - apply compare_eq in E. now subst.
  - exfalso. destruct Hin as [Heq|Hin].
    + cbn in Heq. subst. now rewrite compare_refl in E.
    + rewrite Forall_forall in Hall. apply Hall in Hin.
      apply (key_lt_irrefl k). now apply key_lt_trans with k'.
  - destruct Hin as [Heq|Hin].
    + cbn in Heq. subst. now rewrite compare_refl in E.
    + now rewrite IH.
Qed.

Lemma map_of_list_snoc (l : list (bytes * V)) k v :
  map_of_list (l ++ [(k, v)]) = fst (emplace k v (map_of_list l)).
Proof. unfold map_of_list. now rewrite fold_left_app. Qed.

(** However a map was filled, its keys are in ascending order. *)
Lemma map_of_list_sorted (l : list (bytes * V)) :
  StronglySorted key_lt (map fst (map_of_list l)).
Proof.
  induction l as [|[k v] l IH] using rev_ind; [constructor|].
  rewrite map_of_list_snoc. now apply emplace_sorted.
Qed.

End Emplace.

(** ** The decoder on the tokens of the grammar *)

Lemma string_token_head (max_size : Z) (w s : bytes) :
  string_token max_size w s ->
  exists c w', w = c :: w' /\ isdigit c = true.
Proof.
  intros [ds s' Hne Hds _ _]. destruct ds as [|d ds']; [contradiction|].
  cbn [forallb] in Hds. apply andb_true_iff in Hds as [Hd _].
  now exists d, (ds' ++ ":"%char :: s').
Qed.

(** A token is not empty and does not start with the terminator. *)
Lemma token_head (max_size : Z) (w : bytes) (v : any) :
  token max_size w v ->
  exists c w', w = c :: w' /\ Ascii.eqb c "e" = false.
Proof.
  intros [neg ds n _ _ _ _|w' s Hs|ws vs _|ws kvs _ _].
  - now eexists _, _.
  - apply string_token_head in Hs as (c & w'' & -> & Hc).
    exists c, w''. split; [reflexivity|]. now apply digit_not.
  - now eexists _, _.
  - now eexists _, _.
Qed.

(** Every item and every entry of the grammar takes at least one byte. *)
Lemma token_seq_length (max_size : Z) (ws : bytes) (vs : list any) :
  token_seq max_size ws vs -> (length vs <= length ws)%nat.
Proof.
  induction 1 as [|w ws v vs Hw _ IH]; [reflexivity|].
  destruct (token_head _ _ _ Hw) as (c & w' & -> & _).
  rewrite length_app. cbn [length]. lia.
Qed.

Lemma token_pairs_length (max_size : Z) (ws : bytes) (kvs : list (bytes * any)) :
  token_pairs max_size ws kvs -> (length kvs <= length ws)%nat.
Proof.
  induction 1 as [|kw w ws k v kvs Hk _ _ IH]; [reflexivity|].
  destruct (string_token_head _ _ _ Hk) as (c & w' & -> & _).
  rewrite !length_app. cbn [length]. lia.
Qed.

(** One step of [decode_data]. *)
Lemma decode_data_unfold (max_size : Z) (cat : iterator_category) (fuel : nat)
  (s : bytes) :
  decode_data max_size cat (S fuel) s =
    match s with
    | [] => Ok any_empty []
    | c :: _ =>
        if Ascii.eqb c "i" then
          do (n, r) <- decode_int s; Ok (any_integer n) r
        else if Ascii.eqb c "l" then
          do (l, r) <- decode_list (decode_data max_size cat fuel) s; Ok (any_list l) r
        else if Ascii.eqb c "d" then
          do (d, r) <- decode_dict max_size cat (decode_data max_size cat fuel) s;
          Ok (any_dict d) r
        else if isdigit c then
          do (v, r) <- decode_str max_size false cat s; Ok (any_string v) r
        else Throw unexpected_type
    end.
Proof. reflexivity. Qed.

(** The loops stop, whatever their bound, where the input ends or an ['e']
    comes. *)
Lemma decode_list_while_closes (dec : bytes -> outcome any) (n : nat) (r : bytes)
  (value : list any) :
  closes r = true -> decode_list_while dec n r value = Ok value r.
Proof.
  intros Hr. destruct r as [|c r]; [now destruct n|].
  cbn [closes] in Hr. destruct n; cbn [decode_list_while]; now rewrite Hr.
Qed.

Lemma decode_dict_while_closes (max_size : Z) (cat : iterator_category)
  (dec : bytes -> outcome any) (n : nat) (r : bytes) (value : list (bytes * any)) :
  closes r = true -> decode_dict_while max_size cat dec n r value = Ok value r.
Proof.
  intros Hr. destruct r as [|c r]; [now destruct n|].
  cbn [closes] in Hr. destruct n; cbn [decode_dict_while]; now rewrite Hr.
Qed.

Section Soundness.

Variable max_size : Z.
Hypothesis max_size_ptrdiff : max_size < 2 ^ 63.
Variable cat : iterator_category.

(** On a token [decode_data] returns its value and stops behind it; on a
    sequence of items, or of entries with fresh keys, the loops make one
    round per item and go on with what follows. *)
Lemma decode_data_token_mut :
  (forall w v, token max_size w v ->
     forall fuel t, (length w < fuel)%nat ->
       decode_data max_size cat fuel (w ++ t) = Ok v t)
  /\ (forall ws vs, token_seq max_size ws vs ->
     forall fuel n value r, (length ws < fuel)%nat ->
       decode_list_while (decode_data max_size cat fuel) (length vs + n) (ws ++ r) value
       = decode_list_while (decode_data max_size cat fuel) n r (value ++ vs))
  /\ (forall ws kvs, token_pairs max_size ws kvs ->
     forall fuel n m r, (length ws < fuel)%nat ->
       (forall k, In k (map fst kvs) -> ~ In k (map fst m)) ->
       NoDup (map fst kvs) ->
       decode_dict_while max_size cat (decode_data max_size cat fuel) (length kvs + n)
         (ws ++ r) m
       = decode_dict_while max_size cat (decode_data max_size cat fuel) n r
           (fold_left with_entry kvs m)).
Proof.
  apply token_mutind.
  - (* integer *)
    intros neg ds n Hne Hds -> Hrange fuel t Hfuel.
    destruct fuel as [|fuel]; [inversion Hfuel|].
    cbn [app decode_data]. cbn [Ascii.eqb Bool.eqb andb].
    unfold decode_int. rewrite <- !app_assoc. cbn [app].
    rewrite decode_int_real_run by (auto using isdigit_code).
    cbn [Ascii.eqb Bool.eqb andb bind]. now rewrite wrap64_small.
  - (* string *)
    intros w s Hs fuel t Hfuel.
    destruct fuel as [|fuel]; [inversion Hfuel|].
    destruct (string_token_head _ _ _ Hs) as (c & w' & Hw & Hc).
    pose proof (decode_str_token max_size max_size_ptrdiff cat w s t Hs) as Hd.
    subst w. cbn [app] in *. cbn [decode_data].
    rewrite (digit_not c "i" Hc eq_refl), (digit_not c "l" Hc eq_refl),
      (digit_not c "d" Hc eq_refl), Hc, Hd.
    reflexivity.
  - (* list *)
    intros ws vs Hws IH fuel t Hfuel.
    destruct fuel as [|fuel]; [inversion Hfuel|].
    cbn [app decode_data]. cbn [Ascii.eqb Bool.eqb andb].
    unfold decode_list. cbn [Ascii.eqb Bool.eqb andb negb].
    rewrite <- app_assoc. cbn [app].
    cbn [length] in Hfuel. rewrite length_app in Hfuel. cbn [length] in Hfuel.
    apply token_seq_length in Hws.
    replace (length (ws ++ "e"%char :: t))
      with (length vs + (length (ws ++ "e"%char :: t) - length vs))%nat
      by (rewrite length_app; lia).
    rewrite IH, decode_list_while_closes by (lia || reflexivity).
    reflexivity.
  - (* dict *)
    intros ws kvs Hws IH Hnodup fuel t Hfuel.
    destruct fuel as [|fuel]; [inversion Hfuel|].
    cbn [app decode_data]. cbn [Ascii.eqb Bool.eqb andb].
    unfold decode_dict. cbn [Ascii.eqb Bool.eqb andb negb].
    rewrite <- app_assoc. cbn [app].
    cbn [length] in Hfuel. rewrite length_app in Hfuel. cbn [length] in Hfuel.
    apply token_pairs_length in Hws.
    replace (length (ws ++ "e"%char :: t))
      with (length kvs + (length (ws ++ "e"%char :: t) - length kvs))%nat
      by (rewrite length_app; lia).
    rewrite IH; [|lia|easy|assumption].
    rewrite decode_dict_while_closes by reflexivity. reflexivity.
  - (* no item *)
    intros fuel n value r _. cbn [app length Nat.add]. now rewrite app_nil_r.
  - (* one more item *)
    intros w ws v vs Hw IHw _ IHws fuel n value r Hfuel.
    destruct (token_head _ _ _ Hw) as (c & w' & Heq & Hc).
    rewrite length_app in Hfuel.
    rewrite <- app_assoc.
    pose proof (IHw fuel (ws ++ r) ltac:(lia)) as Hd.
    rewrite Heq in Hd |- *. cbn [app length Nat.add] in Hd |- *.
    cbn [decode_list_while]. rewrite Hc, Hd. cbn [bind].
    rewrite IHws by lia. now rewrite <- app_assoc.
  - (* no entry *)
    intros fuel n m r _ _ _. reflexivity.
  - (* one more entry *)
    intros kw w ws k v kvs Hk Hw IHw _ IHws fuel n m r Hfuel Hfresh Hnodup.
    destruct (string_token_head _ _ _ Hk) as (c & kw' & Heq & Hc).
    rewrite !length_app in Hfuel.
    rewrite <- !app_assoc.
    pose proof (decode_str_token max_size max_size_ptrdiff cat kw k
                  (w ++ ws ++ r) Hk) as Hd.
    rewrite Heq in Hd |- *. cbn [app length Nat.add] in Hd |- *.
    cbn [decode_dict_while].
    rewrite (digit_not c "e" Hc eq_refl), Hc.
    cbn [negb]. rewrite Hd. cbn [bind].
    rewrite IHw by lia. cbn [bind].
    cbn [map fst] in Hnodup, Hfresh. inversion Hnodup as [|? ? Hnotin Hnodup']; subst.
    destruct (emplace_absent any k v m) as (m' & Hm' & Hkeys);
      [apply Hfresh; now left|].
    rewrite Hm'. cbn [negb].
    rewrite IHws; try lia; try assumption.
    + cbn [fold_left]. unfold with_entry at 3. cbn [fst snd]. now rewrite Hm'.
    + intros k2 Hk2 Hin. apply Hkeys in Hin as [->|Hin]; [contradiction|].
      apply (Hfresh k2); [now right|assumption].
Qed.

(** The decoder returns the value a token denotes and stops right after
    the token, whatever follows. *)
Lemma decode_range_token (w : bytes) (v : any) (t : bytes) :
  token max_size w v ->
  decode_range max_size cat (w ++ t) = Ok v t.
Proof.
  intros Hw. unfold decode_range.
  apply (proj1 decode_data_token_mut); [assumption|].
  rewrite length_app. lia.
Qed.

End Soundness.

(** ** The encoder writes tokens *)

Lemma sorted_app_before (l1 l2 : list bytes) (x : bytes) :
  StronglySorted key_lt (l1 ++ x :: l2) -> Forall (fun y => key_lt y x) l1.
Proof.
  induction l1 as [|y l1 IH]; intros H; [constructor|].
  cbn [app] in H. inversion H as [|? ? Hs Hall]; subst.
  constructor; [|now apply IH].
  rewrite Forall_forall in Hall. apply Hall, in_elt.
Qed.

Lemma sorted_nodup (l : list bytes) : StronglySorted key_lt l -> NoDup l.
Proof.
  induction 1 as [|x l Hs IH Hall]; constructor; [|assumption].
  intros Hin. rewrite Forall_forall in Hall. now apply (key_lt_irrefl x), Hall.
Qed.

(** A map whose entries are given in ascending key order is that list. *)
Lemma map_of_list_ascending (V : Type) (d : list (bytes * V)) :
  StronglySorted key_lt (map fst d) -> map_of_list d = d.
Proof.
  unfold map_of_list. change d with ([] ++ d) at 1 3.
  generalize (@nil (bytes * V)) as acc.
  induction d as [|[k v] d IH]; intros acc Hs; cbn [fold_left].
  - now rewrite app_nil_r.
  - unfold with_entry at 2. cbn [fst snd]. rewrite emplace_last.
    + cbn [fst]. rewrite IH; rewrite <- app_assoc; [reflexivity|exact Hs].
    + rewrite map_app in Hs. cbn [map fst] in Hs. now apply sorted_app_before in Hs.
Qed.

Section Canonical.

Variable max_size : Z.

Lemma encode_integer_token (n : Z) :
  - 2 ^ 63 <= n < 2 ^ 63 ->
  token max_size (encode_integer [] n) (any_integer n).
Proof.
  intros Hn. unfold encode_integer, put_integer. cbn [app lit list_ascii_of_string].
  destruct (Z.ltb_spec n 0).
  - apply (token_integer max_size true (decimal (- n)) n).
    + apply decimal_nonempty.
    + apply decimal_isdigit. lia.
    + rewrite decimal_number; lia.
    + assumption.
  - apply (token_integer max_size false (decimal n) n).
    + apply decimal_nonempty.
    + now apply decimal_isdigit.
    + now rewrite decimal_number.
    + assumption.
Qed.

Lemma encode_string_view_token (s : bytes) :
  Z.of_nat (length s) <= max_size ->
  string_token max_size (encode_string_view [] s) s.
Proof.
  intros Hs. unfold encode_string_view, put_size. cbn [app lit list_ascii_of_string].
  constructor.
  - apply decimal_nonempty.
  - apply decimal_isdigit. lia.
  - apply decimal_number. lia.
  - assumption.
Qed.

Lemma list_encoder_add_tokens (l : list any) :
  Forall (fun v => canonical max_size v = true ->
                   exists w, writes v w /\ token max_size w v) l ->
  forallb (canonical max_size) l = true ->
  exists ws, (forall os, list_encoder_add (fun os i => encode_any os i) os l
                         = (os ++ ws, None))
             /\ token_seq max_size ws l.
Proof.
  induction 1 as [|v l Hv _ IH]; intros Hcan.
  - exists []. split; [intros os; cbn; now rewrite app_nil_r|constructor].
  - cbn [forallb] in Hcan. apply andb_true_iff in Hcan as [Hcv Hcl].
    destruct (Hv Hcv) as (w & Hw & Htok). destruct (IH Hcl) as (ws & Hws & Htoks).
    exists (w ++ ws). split; [|now constructor].
    intros os. cbn [list_encoder_add]. rewrite Hw, Hws. now rewrite app_assoc.
Qed.

Lemma dict_encoder_add_tokens (d : list (bytes * any)) :
  Forall (fun kv => canonical max_size (snd kv) = true ->
                    exists w, writes (snd kv) w /\ token max_size w (snd kv)) d ->
  forallb (fun kv => let '(k, i) := kv in
                     (Z.of_nat (length k) <=? max_size) && canonical max_size i) d
  = true ->
  exists ws, (forall os, dict_encoder_add (fun os i => encode_any os i) os d
                         = (os ++ ws, None))
             /\ token_pairs max_size ws d.
Proof.
  induction 1 as [|[k v] d Hv _ IH]; intros Hcan.
  - exists []. split; [intros os; cbn; now rewrite app_nil_r|constructor].
  - cbn [forallb] in Hcan. apply andb_true_iff in Hcan as [Hkv Hcd].
    apply andb_true_iff in Hkv as [Hk Hcv]. apply Z.leb_le in Hk.
    destruct (Hv Hcv) as (w & Hw & Htok). destruct (IH Hcd) as (ws & Hws & Htoks).
    exists (encode_string_view [] k ++ w ++ ws). split.
    + intros os. cbn [dict_encoder_add].
      cbn [snd] in Hw. rewrite Hw, Hws, encode_string_view_app.
      now rewrite <- !app_assoc.
    + constructor; [now apply encode_string_view_token|assumption..].
Qed.

Lemma encode_any_token (v : any) :
  canonical max_size v = true ->
  exists w, writes v w /\ token max_size w v.
Proof.
  induction v as [|n|s|l IH|d IH|] using any_ind; intros Hcan; [| | | | |discriminate].
  - discriminate.
  - cbn [canonical] in Hcan. apply andb_true_iff in Hcan as [H1 H2].
    apply Z.leb_le in H1. apply Z.ltb_lt in H2.
    exists (encode_integer [] n). split.
    + intros os. cbn [encode_any]. now rewrite encode_integer_app.
    + now apply encode_integer_token.
  - cbn [canonical] in Hcan. apply Z.leb_le in Hcan.
    exists (encode_string_view [] s). split.
    + intros os. cbn [encode_any]. now rewrite encode_string_view_app.
    + constructor. now apply encode_string_view_token.
  - cbn [canonical] in Hcan.
    destruct (list_encoder_add_tokens l IH Hcan) as (ws & Hws & Htoks).
    exists ("l"%char :: ws ++ ["e"%char]). split.
    + intros os. cbn [encode_any]. unfold encode_vector. rewrite Hws.
      cbn [lit list_ascii_of_string]. now rewrite <- !app_assoc.
    + now constructor.
  - cbn [canonical] in Hcan. apply andb_true_iff in Hcan as [Hasc Hcan].
    apply ascending_sorted in Hasc.
    destruct (dict_encoder_add_tokens d IH Hcan) as (ws & Hws & Htoks).
    exists ("d"%char :: ws ++ ["e"%char]). split.
    + intros os. cbn [encode_any]. unfold encode_map. rewrite Hws.
      cbn [lit list_ascii_of_string]. now rewrite <- !app_assoc.
    + rewrite <- (map_of_list_ascending any d Hasc).
      constructor; [assumption|]. now apply sorted_nodup.
Qed.

End Canonical.

(** ** Keys of a map that was filled entry by entry *)

Lemma emplace_keeps (V : Type) (k x : bytes) (v : V) (m : list (bytes * V)) :
  In x (map fst m) -> In x (map fst (fst (emplace k v m))).
Proof.
  induction m as [|[k' v'] m IH]; intros Hin; [contradiction|].
  cbn [emplace]. destruct (compare k k').
  - exact Hin.
  - now right.
  - destruct (emplace k v m) as [m'' r]. cbn [fst map] in *.
    destruct Hin as [Heq|Hin]; [now left|right; now apply IH].
Qed.

Lemma emplace_has (V : Type) (k : bytes) (v : V) (m : list (bytes * V)) :
  In k (map fst (fst (emplace k v m))).
Proof.
  induction m as [|[k' v'] m IH]; cbn [emplace]; [now left|].
  destruct (compare k k') eqn:E.
  - apply compare_eq in E. subst. now left.
  - now left.
  - destruct (emplace k v m) as [m'' r]. now right.
Qed.

Lemma map_of_list_keys (V : Type) (l : list (bytes * V)) (k : bytes) :
  In k (map fst l) -> In k (map fst (map_of_list l)).
Proof.
  induction l as [|[k' v'] l IH] using rev_ind; intros Hin; [contradiction|].
  rewrite map_of_list_snoc. rewrite map_app in Hin. apply in_app_or in Hin as [Hin|Hin].
  - now apply emplace_keeps, IH.
  - destruct Hin as [<-|[]]. apply emplace_has.
Qed.

(** ** The bounds of the model are never reached *)

Lemma decode_int_digits_rest (v : Z) (s : bytes) :
  exists p, s = p ++ snd (decode_int_digits v s).
Proof.
  revert v. induction s as [|c s IH]; intros v; cbn [decode_int_digits];
    [now exists []|].
  destruct (isdigit c); [|now exists []].
  destruct (IH (wrap64 (wrap64 (wrap64 (v * 10) + code c) - code "0"))) as [p Hp].
  exists (c :: p). cbn [app]. now rewrite <- Hp.
Qed.

Lemma decode_str_digits_rest (v : Z) (s : bytes) :
  exists p, s = p ++ snd (decode_str_digits v s).
Proof.
  revert v. induction s as [|c s IH]; intros v; cbn [decode_str_digits];
    [now exists []|].
  destruct (isdigit c); [|now exists []].
  destruct (IH (size_t (size_t (size_t (v * 10) + code c) - code "0"))) as [p Hp].
  exists (c :: p). cbn [app]. now rewrite <- Hp.
Qed.

(** A rest of a rest, behind at least one byte. *)
Lemma finishes_ok (A : Type) (c : ascii) (s p r : bytes) (a : A) :
  s = p ++ r -> finishes (c :: s) (Ok a r).
Proof.
  intros ->. exists (c :: p). split; [reflexivity|discriminate].
Qed.

Lemma decode_int_real_finishes (c : ascii) (s : bytes) :
  Ascii.eqb c "i" = true -> finishes (c :: s) (decode_int_real (c :: s)).
Proof.
  intros Hc. unfold decode_int_real. rewrite Hc. cbn [negb].
  apply Ascii.eqb_eq in Hc. subst c.
  destruct s as [|c1 s2]; [now exists []|].
  assert (Hrest : forall (positive : bool) s3 q, c1 :: s2 = q ++ s3 ->
            finishes ("i"%char :: c1 :: s2)
              (let '(value, s4) := decode_int_digits 0 s3 in
               match s4 with
               | [] => Throw unexpected_end_of_string
               | c4 :: s5 =>
                   if negb (Ascii.eqb c4 "e") then Throw expected_e
                   else Ok (if positive then value else wrap64 (- value)) s5
               end)).
  { intros positive s3 q Hq. destruct (decode_int_digits_rest 0 s3) as [p Hp].
    destruct (decode_int_digits 0 s3) as [value s4]. cbn [snd] in Hp.
    destruct s4 as [|c4 s5]; [exact I|].
    destruct (negb (Ascii.eqb c4 "e")); [exact I|].
    apply finishes_ok with (p := q ++ p ++ [c4]).
    rewrite Hq, Hp, <- !app_assoc. reflexivity. }
  destruct (Ascii.eqb c1 "-").
  - apply (Hrest false s2 [c1]). reflexivity.
  - apply (Hrest true (c1 :: s2) []). reflexivity.
Qed.

Lemma str_reader_copy_rest (max_size : Z) (cat : iterator_category)
  (s : bytes) (len : Z) :
  match str_reader max_size false cat s len with
  | Ok _ r => exists p, s = p ++ r
  | Throw _ => True
  | _ => False
  end.
Proof.
  unfold str_reader, str_reader_forward, str_reader_input. destruct cat.
  - destruct (_ <? _); [exact I|]. destruct (_ <? _); [exact I|].
    eexists. symmetry. apply firstn_skipn.
  - destruct (_ <? _); [exact I|]. rewrite read_bytes_spec.
    destruct (_ <? _)%nat; [exact I|]. eexists. symmetry. apply firstn_skipn.
Qed.

Lemma decode_str_finishes (max_size : Z) (cat : iterator_category)
  (c : ascii) (s : bytes) :
  isdigit c = true -> finishes (c :: s) (decode_str max_size false cat (c :: s)).
Proof.
  intros Hc. unfold decode_str. rewrite Hc. cbn [negb decode_str_digits]. rewrite Hc.
  set (len0 := size_t (size_t (size_t (0 * 10) + code c) - code "0")).
  destruct (decode_str_digits_rest len0 s) as [p Hp].
  destruct (decode_str_digits len0 s) as [len s1]. cbn [snd] in Hp.
  destruct s1 as [|c1 s2]; [exact I|].
  destruct (negb (Ascii.eqb c1 ":")); [exact I|].
  pose proof (str_reader_copy_rest max_size cat s2 len) as Hr.
  destruct (str_reader max_size false cat s2 len) as [value r| | | |]; try easy.
  destruct Hr as [q Hq]. apply finishes_ok with (p := p ++ c1 :: q).
  rewrite Hp, Hq, <- app_assoc. reflexivity.
Qed.

Section Termination.

Variable max_size : Z.
Variable cat : iterator_category.

(** The loops, for a [decode_data] that finishes on every input of length
    at most [L]. *)
Variable dec : bytes -> outcome any.
Variable L : nat.
Hypothesis dec_finishes : forall s, (length s <= L)%nat -> finishes s (dec s).

Lemma decode_list_while_finishes (n : nat) (s : bytes) (value : list any) :
  (length s <= n)%nat -> (length s <= L)%nat ->
  match decode_list_while dec n s value with
  | Ok _ r => exists p, s = p ++ r
  | Throw _ => True
  | Undefined => exists p, s = p ++ ["i"%char]
  | AssertionFailed | OutOfFuel => False
  end.
Proof.
  revert s value. induction n as [|n IH]; intros s value Hn HL.
  - destruct s; [|cbn [length] in Hn; lia]. cbn. now exists [].
  - destruct s as [|c s']; [cbn; now exists []|].
    cbn [decode_list_while]. destruct (Ascii.eqb c "e") eqn:Ec; [now exists []|].
    pose proof (dec_finishes (c :: s') HL) as Hd.
    destruct (dec (c :: s')) as [v r| | | |]; cbn [bind finishes] in *; try easy.
    destruct Hd as (p & Hp & Hne). specialize (Hne ltac:(discriminate)).
    assert (Hlen : (length r < length (c :: s'))%nat).
    { rewrite Hp, length_app. destruct p; [contradiction|cbn [length]; lia]. }
    specialize (IH r (value ++ [v]) ltac:(cbn [length] in *; lia) ltac:(lia)).
    destruct (decode_list_while dec n r (value ++ [v])); try easy.
    + destruct IH as [q ->]. exists (p ++ q). now rewrite <- app_assoc.
    + destruct IH as [q ->]. exists (p ++ q). now rewrite <- app_assoc.
Qed.

Lemma decode_list_finishes (c : ascii) (s : bytes) :
  Ascii.eqb c "l" = true -> (length s <= L)%nat ->
  finishes (c :: s) (decode_list dec (c :: s)).
Proof.
  intros Hc HL. unfold decode_list. rewrite Hc. cbn [negb].
  pose proof (decode_list_while_finishes (length s) s [] (Nat.le_refl _) HL) as Hw.
  destruct (decode_list_while dec (length s) s []) as [value r| | | |];
    cbn [bind]; try easy.
  - destruct Hw as [p Hp]. destruct r as [|c' r']; [exact I|].
    apply finishes_ok with (p := p ++ [c']). now rewrite <- app_assoc.
  - destruct Hw as [p ->]. now exists (c :: p).
Qed.

Lemma decode_dict_while_finishes (n : nat) (s : bytes) (value : list (bytes * any)) :
  (length s <= n)%nat -> (length s <= L)%nat ->
  match decode_dict_while max_size cat dec n s value with
  | Ok _ r => exists p, s = p ++ r
  | Throw _ => True
  | Undefined => exists p, s = p ++ ["i"%char]
  | AssertionFailed | OutOfFuel => False
  end.
Proof.
  revert s value. induction n as [|n IH]; intros s value Hn HL.
  - destruct s; [|cbn [length] in Hn; lia]. cbn. now exists [].
  - destruct s as [|c s']; [cbn; now exists []|].
    cbn [decode_dict_while]. destruct (Ascii.eqb c "e") eqn:Ec; [now exists []|].
    destruct (isdigit c) eqn:Hc; cbn [negb]; [|exact I].
    pose proof (decode_str_finishes max_size cat c s' Hc) as Hk.
    destruct (decode_str max_size false cat (c :: s')) as [k s1| | | |];
      cbn [bind finishes] in *; try easy.
    destruct Hk as (p & Hp & Hne). specialize (Hne ltac:(discriminate)).
    assert (Hlen : (length s1 < length (c :: s'))%nat).
    { rewrite Hp, length_app. destruct p; [contradiction|cbn [length]; lia]. }
    pose proof (dec_finishes s1 ltac:(cbn [length] in *; lia)) as Hd.
    destruct (dec s1) as [v s2| | | |]; cbn [bind finishes] in *; try easy.
    + destruct Hd as (p1 & Hp1 & _).
      destruct (emplace k v value) as [value' [found inserted]].
      destruct inserted; cbn [negb]; [|exact I].
      assert (Hlen2 : (length s2 <= length s1)%nat)
        by (rewrite Hp1, length_app; lia).
      specialize (IH s2 value' ltac:(cbn [length] in *; lia) ltac:(lia)).
      destruct (decode_dict_while max_size cat dec n s2 value'); try easy.
      * destruct IH as [q ->]. exists (p ++ p1 ++ q).
        now rewrite Hp, Hp1, <- !app_assoc.
      * destruct IH as [q ->]. exists (p ++ p1 ++ q).
        now rewrite Hp, Hp1, <- !app_assoc.
    + destruct Hd as [q ->]. exists (p ++ q). now rewrite Hp, <- app_assoc.
Qed.

Lemma decode_dict_finishes (c : ascii) (s : bytes) :
  Ascii.eqb c "d" = true -> (length s <= L)%nat ->
  finishes (c :: s) (decode_dict max_size cat dec (c :: s)).
Proof.
  intros Hc HL. unfold decode_dict. rewrite Hc. cbn [negb].
  pose proof (decode_dict_while_finishes (length s) s [] (Nat.le_refl _) HL) as Hw.
  destruct (decode_dict_while max_size cat dec (length s) s []) as [value r| | | |];
    cbn [bind]; try easy.
  - destruct Hw as [p Hp]. destruct r as [|c' r']; [exact I|].
    apply finishes_ok with (p := p ++ [c']). now rewrite <- app_assoc.
  - destruct Hw as [p ->]. now exists (c :: p).
Qed.

End Termination.

Lemma finishes_bind (A B : Type) (s : bytes) (o : outcome A) (f : A -> B) :
  finishes s o -> finishes s (do (a, r) <- o; Ok (f a) r).
Proof. now destruct o. Qed.

Lemma decode_data_finishes (max_size : Z) (cat : iterator_category)
  (fuel : nat) (s : bytes) :
  (length s < fuel)%nat -> finishes s (decode_data max_size cat fuel s).
Proof.
  revert s. induction fuel as [|fuel IH]; intros s Hfuel; [inversion Hfuel|].
  rewrite decode_data_unfold. destruct s as [|c s']; [now exists []|].
  cbn [length] in Hfuel.
  assert (Hdec : forall r, (length r <= length s')%nat ->
                           finishes r (decode_data max_size cat fuel r)).
  { intros r Hr. apply IH. lia. }
  destruct (Ascii.eqb c "i") eqn:Ei.
  { apply finishes_bind. now apply decode_int_real_finishes. }
  destruct (Ascii.eqb c "l") eqn:El.
  { apply finishes_bind. now apply decode_list_finishes with (L := length s'). }
  destruct (Ascii.eqb c "d") eqn:Ed.
  { apply finishes_bind. now apply decode_dict_finishes with (L := length s'). }
  destruct (isdigit c) eqn:Hc; [|exact I].
  apply finishes_bind. now apply decode_str_finishes.
Qed.

(** X13: on every input the decoder comes to an end: it returns what is
    left of the input behind the value, which is a proper rest unless the
    input is empty, or throws, or reads at the end position, and this only
    on an input whose last byte is an ['i'].  The model's bounds on depth
    and on rounds are never what stops it, and no assertion fails. *)
Lemma decode_range_finishes (max_size : Z) (cat : iterator_category) (s : bytes) :
  finishes s (decode_range max_size cat s).
Proof. apply decode_data_finishes. lia. Qed.

(** * The claims *)

(** ** Integers *)

(** C1: an integer literal beyond the range of a signed 64-bit integer
    should fail with an overflow error.  The code has no such error: the
    loop of [decode_int_real], under its comment "TODO: handle overflow",
    lets the value wrap, and the literal 2^63 comes back as -2^63. *)
Theorem decode_int_overflow_wraps (max_size : Z) (cat : iterator_category) :
  decode_range max_size cat (lit "i9223372036854775808e")
  = Ok (any_integer (- 9223372036854775808)) [].
Proof. destruct cat; vm_compute; reflexivity. Qed.

(** What [decode_data] does with an integer token, whatever its digits. *)
Lemma decode_range_int_run (max_size : Z) (cat : iterator_category)
  (neg : bool) (ds : bytes) (x : ascii) (t : bytes) :
  forallb isdigit ds = true ->
  isdigit x = false ->
  neg = true \/ ds <> [] \/ Ascii.eqb x "-" = false ->
  decode_range max_size cat ("i"%char :: sign neg ++ ds ++ x :: t) =
    if Ascii.eqb x "e"
    then Ok (any_integer (wrap64 (if neg then - number ds else number ds))) t
    else Throw expected_e.
Proof.
  intros Hds Hx Hfirst. unfold decode_range. cbn [decode_data].
  cbn [Ascii.eqb Bool.eqb andb]. unfold decode_int.
  rewrite decode_int_real_run by assumption.
  now destruct (Ascii.eqb x "e").
Qed.

(** The claim C2 as it stands fails on the code: the four inputs below are
    malformed integer tokens, and each of them is decoded to a value. *)
Lemma malformed_integers_accepted :
  decode example_max_size (lit "ie") = Ok (any_integer 0) []
  /\ decode example_max_size (lit "i-e") = Ok (any_integer 0) []
  /\ decode example_max_size (lit "i03e") = Ok (any_integer 3) []
  /\ decode example_max_size (lit "i-0e") = Ok (any_integer 0) [].
Proof. repeat split; vm_compute; reflexivity. Qed.

(** C2, amended: an integer token is rejected when its optional sign and
    its run of digits, which may be empty, is followed by a byte other than
    ['e'] (as in "i e"; the error is "expected 'e'") or, after a sign or a
    digit, by the end of the input ("unexpected end of string").  With an
    ['e'] there the token is accepted whatever the digits are: no digit at
    all and "-0" give 0, leading zeros are skipped. *)
Theorem decode_int_rejects_only_bad_terminator (max_size : Z) (cat : iterator_category)
  (neg : bool) (ds : bytes) :
  forallb isdigit ds = true ->
  (forall x t, isdigit x = false -> Ascii.eqb x "e" = false ->
               neg = true \/ ds <> [] \/ Ascii.eqb x "-" = false ->
               decode_range max_size cat ("i"%char :: sign neg ++ ds ++ x :: t)
               = Throw expected_e)
  /\ (neg = true \/ ds <> [] ->
      decode_range max_size cat ("i"%char :: sign neg ++ ds)
      = Throw unexpected_end_of_string)
  /\ (forall t,
      decode_range max_size cat ("i"%char :: sign neg ++ ds ++ "e"%char :: t)
      = Ok (any_integer (wrap64 (if neg then - number ds else number ds))) t).
Proof.
  intros Hds. split; [|split].
  - intros x t Hx He Hfirst. rewrite decode_range_int_run by assumption. now rewrite He.
  - intros Hfirst. unfold decode_range.
    cbn [decode_data Ascii.eqb Bool.eqb andb]. unfold decode_int.
    now rewrite decode_int_real_end.
  - intros t. rewrite decode_range_int_run; [reflexivity|assumption|reflexivity|].
    destruct neg; [now left|]. right. destruct ds; [now right|now left].
Qed.

Lemma decode_int_rejects_only_bad_terminator_witness :
  decode_range example_max_size forward_iterator_tag (lit "i e") = Throw expected_e
  /\ decode_range example_max_size forward_iterator_tag (lit "i-4") = Throw unexpected_end_of_string
  /\ decode_range example_max_size forward_iterator_tag (lit "i-0e") = Ok (any_integer 0) [].
Proof.
  split; [|split].
  - apply (proj1 (decode_int_rejects_only_bad_terminator
                    example_max_size forward_iterator_tag false [] eq_refl)
             " "%char []); [reflexivity|reflexivity|right; right; reflexivity].
  - apply (proj1 (proj2 (decode_int_rejects_only_bad_terminator
                    example_max_size forward_iterator_tag true (lit "4") eq_refl))).
    left; reflexivity.
  - apply (proj2 (proj2 (decode_int_rejects_only_bad_terminator
                    example_max_size forward_iterator_tag true (lit "0") eq_refl)) []).
Defined.

(** ** The first byte *)

(** C5: on the empty input the decoder returns an empty [any] and throws
    nothing; a first byte that is no tag and no digit makes it throw
    "unexpected type". *)
Theorem decode_empty_input_is_empty_any (max_size : Z) (cat : iterator_category) :
  decode_range max_size cat [] = Ok any_empty []
  /\ forall c s,
       Ascii.eqb c "i" = false -> Ascii.eqb c "l" = false ->
       Ascii.eqb c "d" = false -> isdigit c = false ->
       decode_range max_size cat (c :: s) = Throw unexpected_type.
Proof.
  split; [reflexivity|].
  intros c s Hi Hl Hd Hdigit. unfold decode_range. cbn [decode_data].
  now rewrite Hi, Hl, Hd, Hdigit.
Qed.

Lemma decode_empty_input_is_empty_any_witness :
  decode_range example_max_size forward_iterator_tag [] = Ok any_empty []
  /\ decode_range example_max_size forward_iterator_tag (lit "x4:spam")
     = Throw unexpected_type.
Proof.
  split.
  - apply (proj1 (decode_empty_input_is_empty_any example_max_size forward_iterator_tag)).
  - apply (proj2 (decode_empty_input_is_empty_any example_max_size forward_iterator_tag)
             "x"%char (lit "4:spam")); reflexivity.
Defined.

(** C9: the decoder should never look at a byte behind the end of the
    input.  [decode_int_real] steps over the ['i'] and compares [*begin]
    with ['-'] without a look at [end]: on the input "i" that is a read at
    the end position.  After a sign the loop looks at [end] first, and "i-"
    gets its exception. *)
Theorem decode_int_tag_at_end (max_size : Z) (cat : iterator_category) :
  decode_range max_size cat (lit "i") = Undefined
  /\ decode_range max_size cat (lit "i-") = Throw unexpected_end_of_string.
Proof. split; reflexivity. Qed.

(** ** Strings *)

(** The decoder with an allocator, step by step. *)
Lemma decode_data_alloc_unfold (max_size memory : Z) (cat : iterator_category)
  (fuel : nat) (s : bytes) :
  decode_data_alloc max_size memory cat (S fuel) s =
    match s with
    | [] => Ok any_empty []
    | c :: _ =>
        if Ascii.eqb c "i" then
          do (n, r) <- decode_int s; Ok (any_integer n) r
        else if Ascii.eqb c "l" then
          do (l, r) <- decode_list (decode_data_alloc max_size memory cat fuel) s;
          Ok (any_list l) r
        else if Ascii.eqb c "d" then
          do (d, r) <- decode_dict_alloc max_size memory cat
                         (decode_data_alloc max_size memory cat fuel) s;
          Ok (any_dict d) r
        else if isdigit c then
          do (v, r) <- decode_str_alloc max_size memory false cat s; Ok (any_string v) r
        else Throw unexpected_type
    end.
Proof. reflexivity. Qed.

Lemma decode_str_alloc_run (max_size memory : Z) (View : bool)
  (cat : iterator_category) (ds s : bytes) :
  ds <> [] -> forallb isdigit ds = true ->
  decode_str_alloc max_size memory View cat (ds ++ ":"%char :: s) =
    str_reader_alloc max_size memory View cat s (size_t (number ds)).
Proof.
  intros Hne Hds.
  assert (Hrun : decode_str_digits 0 (ds ++ ":"%char :: s)
                 = (size_t (number ds), ":"%char :: s)).
  { change 0 with (size_t 0) at 1. now apply decode_str_digits_run. }
  unfold decode_str_alloc. rewrite Hrun.
  destruct ds as [|d ds']; [contradiction|].
  cbn [forallb] in Hds. apply andb_true_iff in Hds as [Hd _].
  cbn [app]. rewrite Hd. reflexivity.
Qed.

(** The claim C6 as it stands fails on the code, in three ways.  The length
    is gathered in a [std::size_t] and wraps: the declared length 2^64 + 2
    is far more than the two bytes that are left, and the decoder returns
    those two bytes as the string.  A declared length from 2^63 on is
    negative as a [std::ptrdiff_t], passes the test of the distance, and it
    is the constructor of the string that throws.  And the reader for input
    iterators builds the string before it looks at [end]: with a declared
    length that the allocator does not grant it throws [std::bad_alloc]. *)
Lemma declared_length_wraps :
  Z.of_nat (length (lit "ab")) < number (lit "18446744073709551618")
  /\ decode example_max_size (lit "18446744073709551618:ab") = Ok (any_string (lit "ab")) []
  /\ decode_stream example_max_size (lit "18446744073709551618:ab")
     = Ok (any_string (lit "ab")) []
  /\ decode_range_alloc example_max_size example_memory forward_iterator_tag
       (lit "9223372036854775808:ab") = Throw length_error
  /\ decode_range_alloc example_max_size example_memory input_iterator_tag
       (lit "999999999999999999:ab") = Throw bad_alloc.
Proof. repeat split; vm_compute; reflexivity. Qed.

(** C6, amended: when the declared length of a string exceeds the bytes
    that are left, decoding throws "unexpected end of string" for these
    lengths: with the readers that compare the length with the distance to
    [end] before they copy or take a view (a forward or random access
    source), for every declared length below 2^63; with the reader for a
    sequential source, which builds a string of the declared length first
    and then looks at [end] before every byte, for every declared length
    that this constructor builds: at most [max_size] and at most what the
    allocator grants.  Longer declared lengths are left out. *)
Theorem decode_str_length_exceeds_input (max_size memory : Z) (ds rest : bytes) :
  max_size < 2 ^ 63 ->
  ds <> [] -> forallb isdigit ds = true ->
  Z.of_nat (length rest) < number ds ->
  (number ds < 2 ^ 63 ->
   (forall View cat, View = true \/ cat = forward_iterator_tag ->
      decode_str_alloc max_size memory View cat (ds ++ ":"%char :: rest)
      = Throw unexpected_end_of_string)
   /\ decode_range_alloc max_size memory forward_iterator_tag (ds ++ ":"%char :: rest)
      = Throw unexpected_end_of_string)
  /\ (number ds <= max_size -> number ds <= memory ->
      decode_str_alloc max_size memory false input_iterator_tag (ds ++ ":"%char :: rest)
      = Throw unexpected_end_of_string
      /\ decode_range_alloc max_size memory input_iterator_tag (ds ++ ":"%char :: rest)
         = Throw unexpected_end_of_string).
Proof.
  intros Hmax Hne Hds Hrest.
  pose proof (number_nonneg ds 0 Hds (Z.le_refl 0)) as Hpos. fold (number ds) in Hpos.
  assert (Hdata : forall cat,
            decode_str_alloc max_size memory false cat (ds ++ ":"%char :: rest)
            = Throw unexpected_end_of_string ->
            decode_range_alloc max_size memory cat (ds ++ ":"%char :: rest)
            = Throw unexpected_end_of_string).
  { intros cat Hstr. unfold decode_range_alloc. rewrite decode_data_alloc_unfold.
    destruct ds as [|d ds']; [contradiction|].
    pose proof Hds as Hd. cbn [forallb] in Hd. apply andb_true_iff in Hd as [Hd _].
    cbn [app] in Hstr |- *.
    now rewrite (digit_not d "i" Hd eq_refl), (digit_not d "l" Hd eq_refl),
      (digit_not d "d" Hd eq_refl), Hd, Hstr. }
  split.
  - intros Hsmall.
    assert (Hstr : forall View cat, View = true \/ cat = forward_iterator_tag ->
              decode_str_alloc max_size memory View cat (ds ++ ":"%char :: rest)
              = Throw unexpected_end_of_string).
    { intros View cat Hreader. rewrite decode_str_alloc_run by assumption.
      rewrite size_t_small by lia.
      unfold str_reader_alloc, str_reader_view, str_reader_forward, to_ptrdiff.
      rewrite wrap64_small by lia.
      destruct (Z.ltb_spec (Z.of_nat (length rest)) (number ds)); [|lia].
      destruct View; [reflexivity|]. destruct Hreader as [Hview| ->]; [discriminate|].
      reflexivity. }
    split; [exact Hstr|]. apply Hdata, Hstr. now right.
  - intros Hfit Hmem.
    assert (Hstr : decode_str_alloc max_size memory false input_iterator_tag
                     (ds ++ ":"%char :: rest) = Throw unexpected_end_of_string).
    { rewrite decode_str_alloc_run by assumption. rewrite size_t_small by lia.
      unfold str_reader_alloc, str_reader_input_alloc.
      destruct (Z.ltb_spec max_size (number ds)); [lia|].
      destruct (Z.ltb_spec memory (number ds)); [lia|].
      rewrite read_bytes_spec.
      destruct (Nat.ltb_spec (length rest) (Z.to_nat (number ds))); [reflexivity|lia]. }
    split; [exact Hstr|]. apply Hdata, Hstr.
Qed.

Lemma decode_str_length_exceeds_input_witness :
  decode_range_alloc example_max_size example_memory forward_iterator_tag (lit "5:ab")
  = Throw unexpected_end_of_string
  /\ decode_range_alloc example_max_size example_memory input_iterator_tag (lit "5:ab")
     = Throw unexpected_end_of_string.
Proof.
  destruct (decode_str_length_exceeds_input example_max_size example_memory
              (lit "5") (lit "ab") eq_refl ltac:(discriminate) eq_refl eq_refl)
    as [Hforward Hinput].
  split.
  - apply Hforward. reflexivity.
  - apply Hinput; vm_compute; discriminate.
Defined.

(** ** Lists and dicts *)

Section Tokens.

Variable max_size : Z.
Hypothesis max_size_ptrdiff : max_size < 2 ^ 63.
Variable cat : iterator_category.

Lemma decode_list_while_tokens (ws : bytes) (vs : list any) (fuel n : nat)
  (value : list any) (r : bytes) :
  token_seq max_size ws vs -> (length ws < fuel)%nat ->
  decode_list_while (decode_data max_size cat fuel) (length vs + n) (ws ++ r) value
  = decode_list_while (decode_data max_size cat fuel) n r (value ++ vs).
Proof.
  intros Hws. now apply (proj1 (proj2 (decode_data_token_mut max_size max_size_ptrdiff cat))).
Qed.

Lemma decode_dict_while_tokens (ws : bytes) (kvs : list (bytes * any)) (fuel n : nat)
  (r : bytes) :
  token_pairs max_size ws kvs -> NoDup (map fst kvs) -> (length ws < fuel)%nat ->
  decode_dict_while max_size cat (decode_data max_size cat fuel) (length kvs + n)
    (ws ++ r) []
  = decode_dict_while max_size cat (decode_data max_size cat fuel) n r (map_of_list kvs).
Proof.
  intros Hws Hnodup Hfuel.
  now apply (proj2 (proj2 (decode_data_token_mut max_size max_size_ptrdiff cat))).
Qed.

(** A list whose items are tokens, up to a point [r] where the loop
    stops. *)
Lemma decode_range_list (ws : bytes) (vs : list any) (r : bytes) :
  token_seq max_size ws vs -> closes r = true ->
  decode_range max_size cat ("l"%char :: ws ++ r) =
    match r with
    | [] => Throw unexpected_end_of_string
    | _ :: t => Ok (any_list vs) t
    end.
Proof.
  intros Hws Hr. unfold decode_range.
  rewrite decode_data_unfold. cbn [Ascii.eqb Bool.eqb andb].
  set (fuel := length ("l"%char :: ws ++ r)).
  assert (Hfuel : (length ws < fuel)%nat)
    by (subst fuel; cbn [length]; rewrite length_app; lia).
  unfold decode_list. cbn [Ascii.eqb Bool.eqb andb negb].
  pose proof (token_seq_length _ _ _ Hws) as Hlen.
  replace (length (ws ++ r)) with (length vs + (length (ws ++ r) - length vs))%nat
    by (rewrite length_app; lia).
  rewrite decode_list_while_tokens by assumption.
  rewrite decode_list_while_closes by assumption.
  cbn [bind app]. now destruct r.
Qed.

End Tokens.

(** C3: a key that occurs a second time in a dict ends the decoding with
    the exception "duplicated key in dict: " followed by that key.  The
    entries read so far have pairwise different keys, the next key [k] is
    one of them, its value is well-formed: whatever follows, no value is
    returned. *)
Theorem decode_dict_duplicate_key (max_size : Z) (cat : iterator_category)
  (ws : bytes) (kvs : list (bytes * any)) (kw k w : bytes) (v : any) (t : bytes) :
  max_size < 2 ^ 63 ->
  token_pairs max_size ws kvs ->
  NoDup (map fst kvs) ->
  In k (map fst kvs) ->
  string_token max_size kw k ->
  token max_size w v ->
  decode_range max_size cat ("d"%char :: ws ++ kw ++ w ++ t) = Throw (duplicated_key k).
Proof.
  intros Hmax Hws Hnodup Hin Hk Hw. unfold decode_range.
  rewrite decode_data_unfold. cbn [Ascii.eqb Bool.eqb andb].
  destruct (string_token_head _ _ _ Hk) as (c & kw' & Heq & Hc).
  set (fuel := length ("d"%char :: ws ++ kw ++ w ++ t)).
  assert (Hfuel : (length ws < fuel)%nat /\ (length w < fuel)%nat)
    by (subst fuel; cbn [length]; rewrite !length_app; lia).
  unfold decode_dict. cbn [Ascii.eqb Bool.eqb andb negb].
  pose proof (token_pairs_length _ _ _ Hws) as Hlen.
  pose proof (decode_str_token max_size Hmax cat kw k (w ++ t) Hk) as Hstr.
  pose proof (proj1 (decode_data_token_mut max_size Hmax cat) w v Hw fuel t
                (proj2 Hfuel)) as Hval.
  replace (length (ws ++ kw ++ w ++ t))
    with (length kvs + S (length (ws ++ kw ++ w ++ t) - length kvs - 1))%nat
    by (rewrite !length_app, Heq; cbn [length]; lia).
  rewrite decode_dict_while_tokens by (assumption || apply Hfuel).
  rewrite Heq in Hstr |- *. cbn [app] in Hstr |- *. cbn [decode_dict_while].
  rewrite (digit_not c "e" Hc eq_refl), Hc. cbn [negb].
  rewrite Hstr. cbn [bind]. rewrite Hval. cbn [bind].
  rewrite emplace_present;
    [reflexivity|apply map_of_list_sorted|now apply map_of_list_keys].
Qed.

Lemma decode_dict_duplicate_key_witness :
  decode_range example_max_size forward_iterator_tag (lit "d1:a1:x1:a1:ye")
  = Throw (duplicated_key (lit "a")).
Proof.
  apply (decode_dict_duplicate_key example_max_size forward_iterator_tag
           (lit "1:a1:x") [(lit "a", any_string (lit "x"))]
           (lit "1:a") (lit "a") (lit "1:y") (any_string (lit "y")) (lit "e")).
  - reflexivity.
  - apply (token_pairs_cons _ (lit "1:a") (lit "1:x") [] (lit "a")
             (any_string (lit "x")) []).
    + string_token_of (lit "1") (lit "a").
    + apply token_string. string_token_of (lit "1") (lit "x").
    + apply token_pairs_nil.
  - repeat constructor. intros [].
  - left. reflexivity.
  - string_token_of (lit "1") (lit "a").
  - apply token_string. string_token_of (lit "1") (lit "y").
Defined.

(** C8: the items of a list come back in the order of the input, and an
    input that ends where the next item or the ['e'] should start makes the
    decoder throw "unexpected end of string"; the three inputs of the
    specification give the list of "spam" and "eggs", the string "spam" and
    the integer 42. *)
Theorem decode_list_in_input_order (max_size : Z) (cat : iterator_category) :
  4 <= max_size < 2 ^ 63 ->
  (forall ws vs t, token_seq max_size ws vs ->
     decode_range max_size cat ("l"%char :: ws ++ "e"%char :: t) = Ok (any_list vs) t)
  /\ (forall ws vs, token_seq max_size ws vs ->
     decode_range max_size cat ("l"%char :: ws) = Throw unexpected_end_of_string)
  /\ decode_range max_size cat (lit "l4:spam4:eggse")
     = Ok (any_list [any_string (lit "spam"); any_string (lit "eggs")]) []
  /\ decode_range max_size cat (lit "4:spam") = Ok (any_string (lit "spam")) []
  /\ decode_range max_size cat (lit "i42e") = Ok (any_integer 42) [].
Proof.
  intros [Hmin Hmax].
  assert (Hspam : string_token max_size (lit "4:spam") (lit "spam")).
  { apply (string_token_intro _ (lit "4") (lit "spam"));
      [discriminate|reflexivity|reflexivity|exact Hmin]. }
  assert (Heggs : string_token max_size (lit "4:eggs") (lit "eggs")).
  { apply (string_token_intro _ (lit "4") (lit "eggs"));
      [discriminate|reflexivity|reflexivity|exact Hmin]. }
  split; [|split; [|split; [|split]]].
  - intros ws vs t Hws.
    now rewrite (decode_range_list max_size Hmax cat ws vs ("e"%char :: t)).
  - intros ws vs Hws. rewrite <- (app_nil_r ws).
    now rewrite (decode_range_list max_size Hmax cat ws vs []).
  - apply (decode_range_list max_size Hmax cat (lit "4:spam4:eggs")
             [any_string (lit "spam"); any_string (lit "eggs")] (lit "e"));
      [|reflexivity].
    apply (token_seq_cons _ (lit "4:spam") (lit "4:eggs")); [now constructor|].
    apply (token_seq_cons _ (lit "4:eggs") []); [now constructor|constructor].
  - apply (decode_range_token max_size Hmax cat (lit "4:spam") _ []).
    now constructor.
  - destruct cat; vm_compute; reflexivity.
Qed.

Lemma decode_list_in_input_order_witness :
  decode_range example_max_size input_iterator_tag (lit "l4:spam4:eggse")
  = Ok (any_list [any_string (lit "spam"); any_string (lit "eggs")]) []
  /\ decode_range example_max_size input_iterator_tag (lit "li42e4:spam")
     = Throw unexpected_end_of_string.
Proof.
  assert (H : 4 <= example_max_size < 2 ^ 63)
    by (split; vm_compute; first [discriminate | reflexivity]).
  split.
  - apply (proj1 (proj2 (proj2 (decode_list_in_input_order
                                   example_max_size input_iterator_tag H)))).
  - apply (proj1 (proj2 (decode_list_in_input_order
                           example_max_size input_iterator_tag H))
             (lit "i42e4:spam") [any_integer 42; any_string (lit "spam")]).
    apply (token_seq_cons _ (lit "i42e") (lit "4:spam")).
    + integer_token_of false (lit "42") 42.
    + apply (token_seq_cons _ (lit "4:spam") []); [|constructor].
      apply token_string. string_token_of (lit "4") (lit "spam").
Defined.

(** ** Round trip *)

(** C4: for a value in canonical form (dict keys ascending, and what the
    types of the library can hold), [encode] returns bytes and [decode] of
    these bytes returns the value, with nothing left over. *)
Theorem decode_encode_roundtrip (max_size : Z) (cat : iterator_category) (v : any) :
  max_size < 2 ^ 63 ->
  canonical max_size v = true ->
  exists w, encode v = inl w /\ decode_range max_size cat w = Ok v [].
Proof.
  intros Hmax Hcan.
  destruct (encode_any_token max_size v Hcan) as (w & Hw & Htok).
  exists w. split.
  - unfold encode. now rewrite Hw.
  - rewrite <- (app_nil_r w). now apply decode_range_token.
Qed.

Lemma decode_encode_roundtrip_witness :
  exists w,
    encode (any_dict [(lit "cow", any_integer (- 9223372036854775808));
                      (lit "spam", any_list [any_string (lit "eggs"); any_integer 0])])
    = inl w
    /\ decode_range example_max_size forward_iterator_tag w
       = Ok (any_dict [(lit "cow", any_integer (- 9223372036854775808));
                       (lit "spam", any_list [any_string (lit "eggs"); any_integer 0])])
            [].
Proof.
  apply (decode_encode_roundtrip example_max_size forward_iterator_tag); reflexivity.
Defined.

(** C10: where the input starts with a well-formed value, the decoder
    returns this value and leaves [begin] at the first byte behind it; the
    bytes that follow have no part in the result. *)
Theorem decode_consumes_one_value (max_size : Z) (cat : iterator_category)
  (w : bytes) (v : any) (t : bytes) :
  max_size < 2 ^ 63 ->
  token max_size w v ->
  decode_range max_size cat (w ++ t) = Ok v t.
Proof. intros Hmax Hw. now apply decode_range_token. Qed.

Lemma decode_consumes_one_value_witness :
  decode_range example_max_size forward_iterator_tag (lit "d3:cowi-7eexyz")
  = Ok (any_dict [(lit "cow", any_integer (- 7))]) (lit "xyz").
Proof.
  apply (decode_consumes_one_value example_max_size forward_iterator_tag
           (lit "d3:cowi-7ee") (any_dict [(lit "cow", any_integer (- 7))]) (lit "xyz")).
  - reflexivity.
  - apply (token_dict _ (lit "3:cowi-7e") [(lit "cow", any_integer (- 7))]).
    + apply (token_pairs_cons _ (lit "3:cow") (lit "i-7e") [] (lit "cow")
               (any_integer (- 7)) []).
      * string_token_of (lit "3") (lit "cow").
      * integer_token_of true (lit "7") (- 7).
      * apply token_pairs_nil.
    + repeat constructor. intros [].
Defined.

(** ** The encoder *)

Lemma emplace_keys_sub (V : Type) (k x : bytes) (v : V) (m : list (bytes * V)) :
  In x (map fst (fst (emplace k v m))) -> x = k \/ In x (map fst m).
Proof.
  induction m as [|[k' v'] m IH]; cbn [emplace].
  - cbn. intuition.
  - destruct (compare k k'); cbn [fst map]; [now right|cbn; intuition|].
    destruct (emplace k v m) as [m'' r]. cbn [fst map] in *.
    intros [H|H]; [right; now left|]. apply IH in H. cbn. intuition.
Qed.

Lemma map_of_list_keys_sub (V : Type) (l : list (bytes * V)) (k : bytes) :
  In k (map fst (map_of_list l)) -> In k (map fst l).
Proof.
  induction l as [|[k' v'] l IH] using rev_ind; intros Hin; [contradiction|].
  rewrite map_of_list_snoc in Hin. rewrite map_app. apply in_or_app.
  apply emplace_keys_sub in Hin as [->|Hin]; [right; now left|left; now apply IH].
Qed.

(** [dict_encoder::add] writes the entries one after the other, in the
    order of the map. *)
Lemma dict_encoder_add_writes (T : Type) (encode_T : ostream -> T -> ostream * option error)
  (W : T -> bytes) (m : list (bytes * T)) (os : ostream) :
  (forall os i, encode_T os i = (os ++ W i, None)) ->
  dict_encoder_add encode_T os m
  = (os ++ flat_map (fun kv => encode_string_view [] (fst kv) ++ W (snd kv)) m, None).
Proof.
  intros HW. revert os. induction m as [|[k i] m IH]; intros os; cbn [dict_encoder_add flat_map].
  - now rewrite app_nil_r.
  - rewrite HW, IH, encode_string_view_app. cbn [fst snd]. now rewrite <- !app_assoc.
Qed.

(** C7: [encode] writes an integer as ['i'], a minus sign exactly when it
    is negative, its decimal digits without a leading zero (a single zero
    for 0, so never "-0") and ['e']; a string as the decimal digits of its
    length, [':'] and its bytes; and the entries of a [std::map], in
    whatever order the map was filled, with the keys in ascending order of
    their bytes. *)
Theorem encode_writes_grammar_tokens :
  (forall os n, exists ds,
      encode_integer os n = os ++ "i"%char :: sign (n <? 0) ++ ds ++ ["e"%char]
      /\ ds <> [] /\ forallb isdigit ds = true /\ number ds = Z.abs n
      /\ (forall r, ds = "0"%char :: r -> r = [] /\ n = 0))
  /\ (forall os s, exists ds,
      encode_string_view os s = os ++ ds ++ ":"%char :: s
      /\ ds <> [] /\ forallb isdigit ds = true /\ number ds = Z.of_nat (length s))
  /\ (forall (T : Type) (encode_T : ostream -> T -> ostream * option error)
             (W : T -> bytes),
      (forall os i, encode_T os i = (os ++ W i, None)) ->
      forall (l : list (bytes * T)) (os : ostream),
        encode_map encode_T os (map_of_list l)
        = (os ++ "d"%char
              :: flat_map (fun kv => encode_string_view [] (fst kv) ++ W (snd kv))
                   (map_of_list l)
              ++ ["e"%char], None)
        /\ StronglySorted key_lt (map fst (map_of_list l))
        /\ (forall k, In k (map fst (map_of_list l)) <-> In k (map fst l))).
Proof.
  split; [|split].
  - intros os n. exists (decimal (Z.abs n)).
    assert (Hds : (if n <? 0 then "-"%char :: decimal (- n) else decimal n)
                  = sign (n <? 0) ++ decimal (Z.abs n)).
    { destruct (Z.ltb_spec n 0); cbn [sign app].
      - now rewrite Z.abs_neq by lia.
      - now rewrite Z.abs_eq by lia. }
    split; [|split; [|split; [|split]]].
    + unfold encode_integer, put_integer. rewrite Hds.
      cbn [lit list_ascii_of_string]. rewrite <- !app_assoc. reflexivity.
    + apply decimal_nonempty.
    + apply decimal_isdigit, Z.abs_nonneg.
    + apply decimal_number, Z.abs_nonneg.
    + intros r Hr. destruct (Z.eq_dec n 0) as [->|Hn].
      * cbn in Hr. injection Hr as <-. now split.
      * destruct (decimal_leading (Z.abs n) ltac:(lia)) as (c & r' & Hc & Hnz).
        rewrite Hc in Hr. injection Hr as -> _. contradiction.
  - intros os s. exists (decimal (Z.of_nat (length s))).
    split; [|split; [|split]].
    + unfold encode_string_view, put_size. cbn [lit list_ascii_of_string].
      now rewrite <- !app_assoc.
    + apply decimal_nonempty.
    + apply decimal_isdigit. lia.
    + apply decimal_number. lia.
  - intros T encode_T W HW l os. split; [|split].
    + unfold encode_map. rewrite (dict_encoder_add_writes T encode_T W) by assumption.
      cbn [lit list_ascii_of_string]. now rewrite <- !app_assoc.
    + apply map_of_list_sorted.
    + intros k. split; [apply map_of_list_keys_sub|apply map_of_list_keys].
Qed.

Lemma encode_writes_grammar_tokens_witness :
  encode_map (fun os n => (encode_integer os n, None)) []
    (map_of_list [(lit "spam", 1); (lit "cow", - 20); (lit "ab", 0)])
  = (lit "d2:abi0e3:cowi-20e4:spami1ee", None).
Proof.
  apply (proj1 (proj2 (proj2 encode_writes_grammar_tokens) Z
                  (fun os n => (encode_integer os n, None)) (encode_integer [])
                  (fun os n => f_equal (fun o => (o, None)) (encode_integer_app os n))
                  [(lit "spam", 1); (lit "cow", - 20); (lit "ab", 0)] [])).
Defined.

(** * Further properties of the decoder and the encoder *)

(** ** What the decoder returns is in canonical form *)

Lemma decode_int_digits_range (v : Z) (s : bytes) :
  - 2 ^ 63 <= v < 2 ^ 63 ->
  - 2 ^ 63 <= fst (decode_int_digits v s) < 2 ^ 63.
Proof.
  revert v. induction s as [|c s IH]; intros v Hv; cbn [decode_int_digits]; [exact Hv|].
  destruct (isdigit c); [|exact Hv]. apply IH, wrap64_range.
Qed.

Lemma decode_int_real_range (s : bytes) (n : Z) (r : bytes) :
  decode_int_real s = Ok n r -> - 2 ^ 63 <= n < 2 ^ 63.
Proof.
  unfold decode_int_real. destruct s as [|c s1]; [discriminate|].
  destruct (negb (Ascii.eqb c "i")); [discriminate|].
  destruct s1 as [|c1 s2]; [discriminate|].
  assert (Hrest : forall (positive : bool) s3,
            (let '(value, s4) := decode_int_digits 0 s3 in
             match s4 with
             | [] => Throw unexpected_end_of_string
             | c4 :: s5 =>
                 if negb (Ascii.eqb c4 "e") then Throw expected_e
                 else Ok (if positive then value else wrap64 (- value)) s5
             end) = Ok n r -> - 2 ^ 63 <= n < 2 ^ 63).
  { intros positive s3.
    pose proof (decode_int_digits_range 0 s3 ltac:(lia)) as Hv.
    destruct (decode_int_digits 0 s3) as [value s4]. cbn [fst] in Hv.
    destruct s4 as [|c4 s5]; [discriminate|].
    destruct (negb (Ascii.eqb c4 "e")); [discriminate|].
    intros [= <- _]. destruct positive; [exact Hv|apply wrap64_range]. }
  destruct (Ascii.eqb c1 "-"); [exact (Hrest false s2)|exact (Hrest true (c1 :: s2))].
Qed.

Lemma decode_str_digits_nonneg (v : Z) (s : bytes) :
  0 <= v -> 0 <= fst (decode_str_digits v s).
Proof.
  revert v. induction s as [|c s IH]; intros v Hv; cbn [decode_str_digits]; [exact Hv|].
  destruct (isdigit c); [|exact Hv]. apply IH. unfold size_t.
  apply Z.mod_pos_bound. lia.
Qed.

(** A string that the copying readers return is one a [std::string] can
    hold. *)
Lemma decode_str_copy_length (max_size : Z) (cat : iterator_category)
  (s value r : bytes) :
  decode_str max_size false cat s = Ok value r ->
  Z.of_nat (length value) <= max_size.
Proof.
  unfold decode_str. destruct s as [|c s']; [discriminate|].
  destruct (negb (isdigit c)); [discriminate|].
  pose proof (decode_str_digits_nonneg 0 (c :: s') ltac:(lia)) as Hlen.
  destruct (decode_str_digits 0 (c :: s')) as [len s1]. cbn [fst] in Hlen.
  destruct s1 as [|c1 s2]; [discriminate|].
  destruct (negb (Ascii.eqb c1 ":")); [discriminate|].
  unfold str_reader, str_reader_forward, str_reader_input. destruct cat.
  - destruct (_ <? _); [discriminate|].
    destruct (Z.ltb_spec max_size len); [discriminate|].
    intros [= <- _]. pose proof (firstn_le_length (Z.to_nat len) s2). lia.
  - destruct (Z.ltb_spec max_size len); [discriminate|].
    rewrite read_bytes_spec. destruct (_ <? _)%nat; [discriminate|].
    intros [= <- _]. pose proof (firstn_le_length (Z.to_nat len) s2). lia.
Qed.

Lemma emplace_forallb (V : Type) (P : bytes * V -> bool) (k : bytes) (v : V)
  (m : list (bytes * V)) :
  forallb P m = true -> P (k, v) = true -> forallb P (fst (emplace k v m)) = true.
Proof.
  intros Hm Hkv. induction m as [|[k' v'] m IH]; cbn [emplace].
  - cbn. now rewrite Hkv.
  - cbn [forallb] in Hm. apply andb_true_iff in Hm as [Hhd Htl].
    destruct (compare k k').
    + cbn [fst forallb]. now rewrite Hhd, Htl.
    + cbn [fst forallb]. now rewrite Hkv, Hhd, Htl.
    + specialize (IH Htl). destruct (emplace k v m) as [m'' r].
      cbn [fst forallb] in *. now rewrite Hhd, IH.
Qed.

Section CanonicalOutput.

Variable max_size : Z.
Variable cat : iterator_category.

(** The loops, for a [decode_data] that returns values in canonical form
    from what is not the empty input, and returns at the end of the input
    when it is called there. *)
Variable dec : bytes -> outcome any.
Hypothesis dec_canonical :
  forall s v r, s <> [] -> dec s = Ok v r -> canonical max_size v = true.
Hypothesis dec_at_end : forall v r, dec [] = Ok v r -> r = [].

Lemma decode_list_while_canonical (n : nat) (s : bytes) (value l r : list _) :
  forallb (canonical max_size) value = true ->
  decode_list_while dec n s value = Ok l r ->
  forallb (canonical max_size) l = true.
Proof.
  revert s value. induction n as [|n IH]; intros s value Hvalue.
  - destruct s as [|c s']; cbn [decode_list_while]; [now intros [= <- _]|].
    destruct (Ascii.eqb c "e"); [now intros [= <- _]|discriminate].
  - destruct s as [|c s']; cbn [decode_list_while]; [now intros [= <- _]|].
    destruct (Ascii.eqb c "e"); [now intros [= <- _]|].
    destruct (dec (c :: s')) as [v r'| | | |] eqn:Ed; cbn [bind]; try discriminate.
    apply IH. rewrite forallb_app, Hvalue. cbn [forallb].
    now rewrite (dec_canonical (c :: s') v r' ltac:(discriminate) Ed).
Qed.

Lemma decode_dict_while_canonical (n : nat) (s : bytes)
  (value d : list (bytes * any)) (c : ascii) (r : bytes) :
  canonical max_size (any_dict value) = true ->
  decode_dict_while max_size cat dec n s value = Ok d (c :: r) ->
  canonical max_size (any_dict d) = true.
Proof.
  revert s value. induction n as [|n IH]; intros s value Hvalue.
  - destruct s as [|c0 s']; cbn [decode_dict_while]; [discriminate|].
    destruct (Ascii.eqb c0 "e"); [now intros [= <- _]|discriminate].
  - destruct s as [|c0 s']; cbn [decode_dict_while]; [discriminate|].
    destruct (Ascii.eqb c0 "e"); [now intros [= <- _]|].
    destruct (negb (isdigit c0)); [discriminate|].
    destruct (decode_str max_size false cat (c0 :: s')) as [k s1| | | |] eqn:Ek;
      cbn [bind]; try discriminate.
    destruct (dec s1) as [v s2| | | |] eqn:Ed; cbn [bind]; try discriminate.
    pose proof (emplace_sorted any k v value) as Hsorted.
    pose proof (emplace_forallb any
                  (fun kv => let '(k, i) := kv in
                             (Z.of_nat (length k) <=? max_size) && canonical max_size i)
                  k v value) as Hall.
    destruct (emplace k v value) as [value' [found inserted]]. cbn [fst] in *.
    destruct (negb inserted); [discriminate|].
    destruct s1 as [|c1 s1'].
    + apply dec_at_end in Ed. subst s2. destruct n; discriminate.
    + apply IH. cbn [canonical] in Hvalue |- *.
      apply andb_true_iff in Hvalue as [Hasc Hcan].
      apply andb_true_iff. split.
      * apply ascending_sorted, Hsorted. now apply ascending_sorted.
      * apply Hall; [exact Hcan|].
        apply andb_true_iff. split.
        -- apply Z.leb_le. now apply (decode_str_copy_length _ _ _ _ _ Ek).
        -- now apply (dec_canonical (c1 :: s1') v s2).
Qed.

End CanonicalOutput.

Lemma decode_data_at_end (max_size : Z) (cat : iterator_category) (fuel : nat)
  (v : any) (r : bytes) :
  decode_data max_size cat fuel [] = Ok v r -> r = [].
Proof. destruct fuel; [discriminate|]. now intros [= _ <-]. Qed.

Lemma decode_data_canonical (max_size : Z) (cat : iterator_category) (fuel : nat)
  (s : bytes) (v : any) (r : bytes) :
  s <> [] -> decode_data max_size cat fuel s = Ok v r -> canonical max_size v = true.
Proof.
  revert s v r. induction fuel as [|fuel IH]; intros s v r Hs; [discriminate|].
  rewrite decode_data_unfold. destruct s as [|c s']; [contradiction|].
  destruct (Ascii.eqb c "i").
  { unfold decode_int.
    destruct (decode_int_real (c :: s')) as [n r'| | | |] eqn:E; try discriminate.
    intros [= <- _]. apply decode_int_real_range in E. cbn [canonical].
    apply andb_true_iff. split; [apply Z.leb_le|apply Z.ltb_lt]; lia. }
  destruct (Ascii.eqb c "l").
  { unfold decode_list. destruct (negb (Ascii.eqb c "l")); [discriminate|].
    destruct (decode_list_while _ _ s' []) as [l r'| | | |] eqn:E; try discriminate.
    cbn [bind]. destruct r' as [|c' r'']; [discriminate|]. intros [= <- _].
    cbn [canonical].
    eapply decode_list_while_canonical; [exact IH| |exact E]. reflexivity. }
  destruct (Ascii.eqb c "d").
  { unfold decode_dict. destruct (negb (Ascii.eqb c "d")); [discriminate|].
    destruct (decode_dict_while _ _ _ _ s' []) as [d r'| | | |] eqn:E; try discriminate.
    cbn [bind]. destruct r' as [|c' r'']; [discriminate|]. intros [= <- _].
    eapply decode_dict_while_canonical;
      [exact IH|apply decode_data_at_end| |exact E]. reflexivity. }
  destruct (isdigit c); [|discriminate].
  destruct (decode_str max_size false cat (c :: s')) as [value r'| | | |] eqn:E;
    try discriminate.
  intros [= <- _]. cbn [canonical]. apply Z.leb_le.
  now apply (decode_str_copy_length _ _ _ _ _ E).
Qed.

(** X1: whatever the decoder returns from an input that is not empty is a
    value in canonical form: no empty [any] inside, integers of a [long
    long], strings a [std::string] can hold, and the keys of every dict in
    ascending order, each once. *)
Theorem decode_returns_canonical (max_size : Z) (cat : iterator_category)
  (s : bytes) (v : any) (r : bytes) :
  s <> [] ->
  decode_range max_size cat s = Ok v r ->
  canonical max_size v = true.
Proof. intros Hs. apply decode_data_canonical, Hs. Qed.

Lemma decode_returns_canonical_witness :
  canonical example_max_size
    (any_dict [(lit "a", any_integer 3); (lit "b", any_list [any_string (lit "x")])])
  = true.
Proof.
  apply (decode_returns_canonical example_max_size forward_iterator_tag
           (lit "d1:bl1:xe1:ai03eetail") _ (lit "tail")); [discriminate|reflexivity].
Defined.

(** X2: a value returned by the decoder can be encoded, and the decoder
    gets the same value back from the bytes of this encoding, with nothing
    left over: decoding and encoding again brings an input to its canonical
    form. *)
Theorem decode_encode_decode (max_size : Z) (cat cat' : iterator_category)
  (s : bytes) (v : any) (r : bytes) :
  max_size < 2 ^ 63 ->
  s <> [] ->
  decode_range max_size cat s = Ok v r ->
  exists w, encode v = inl w /\ decode_range max_size cat' w = Ok v [].
Proof.
  intros Hmax Hs Hd. apply decode_data_canonical in Hd; [|exact Hs].
  destruct (encode_any_token max_size v Hd) as (w & Hw & Htok).
  exists w. split.
  - unfold encode. now rewrite Hw.
  - rewrite <- (app_nil_r w). now apply decode_range_token.
Qed.

Lemma decode_encode_decode_witness :
  exists w,
    encode (any_dict [(lit "a", any_integer 3); (lit "b", any_list [any_string (lit "x")])])
    = inl w
    /\ decode_range example_max_size input_iterator_tag w
       = Ok (any_dict [(lit "a", any_integer 3); (lit "b", any_list [any_string (lit "x")])])
            [].
Proof.
  apply (decode_encode_decode example_max_size forward_iterator_tag input_iterator_tag
           (lit "d1:bl1:xe1:ai03eetail") _ (lit "tail"));
    [reflexivity|discriminate|reflexivity].
Defined.

(** ** The decoder with and without the allocator *)

Lemma decode_str_digits_size (v : Z) (s : bytes) :
  0 <= v < 2 ^ 64 -> 0 <= fst (decode_str_digits v s) < 2 ^ 64.
Proof.
  revert v. induction s as [|c s IH]; intros v Hv; cbn [decode_str_digits]; [exact Hv|].
  destruct (isdigit c); [|exact Hv]. apply IH. unfold size_t.
  apply Z.mod_pos_bound. lia.
Qed.

Section SameOrBadAlloc.

Variable max_size : Z.
Variable memory : Z.
Variable cat : iterator_category.

Lemma same_refl (A : Type) (o : outcome A) : same_or_bad_alloc max_size memory cat o o.
Proof. now left. Qed.

Lemma same_bind (A B : Type) (oa o : outcome A) (ka k : A -> bytes -> outcome B) :
  same_or_bad_alloc max_size memory cat oa o ->
  (forall a r, same_or_bad_alloc max_size memory cat (ka a r) (k a r)) ->
  same_or_bad_alloc max_size memory cat (bind oa ka) (bind o k).
Proof.
  intros [->|(Hcat & Hmem & ->)] Hk; [|now right].
  destruct o; cbn [bind]; auto using same_refl.
Qed.

Lemma decode_str_alloc_same (s : bytes) :
  same_or_bad_alloc max_size memory cat (decode_str_alloc max_size memory false cat s) (decode_str max_size false cat s).
Proof.
  unfold decode_str_alloc, decode_str. destruct s as [|c s']; [apply same_refl|].
  destruct (negb (isdigit c)); [apply same_refl|].
  destruct (decode_str_digits 0 (c :: s')) as [len s1].
  destruct s1 as [|c1 s2]; [apply same_refl|].
  destruct (negb (Ascii.eqb c1 ":")); [apply same_refl|].
  unfold str_reader_alloc, str_reader, str_reader_input_alloc, str_reader_input.
  destruct cat; [now left|].
  destruct (Z.ltb_spec max_size len); [now left|].
  destruct (Z.ltb_spec memory len); [|now left].
  right. repeat split. lia.
Qed.

Variables dec_a dec : bytes -> outcome any.
Hypothesis dec_same : forall s, same_or_bad_alloc max_size memory cat (dec_a s) (dec s).

Lemma decode_list_while_same (n : nat) (s : bytes) (value : list any) :
  same_or_bad_alloc max_size memory cat (decode_list_while dec_a n s value) (decode_list_while dec n s value).
Proof.
  revert s value. induction n as [|n IH]; intros s value;
    destruct s as [|c s']; cbn [decode_list_while]; try apply same_refl.
  destruct (Ascii.eqb c "e"); [apply same_refl|].
  apply same_bind; [apply dec_same|]. intros v r. apply IH.
Qed.

Lemma decode_list_same (s : bytes) :
  same_or_bad_alloc max_size memory cat (decode_list dec_a s) (decode_list dec s).
Proof.
  unfold decode_list. destruct s as [|c s1]; [apply same_refl|].
  destruct (negb (Ascii.eqb c "l")); [apply same_refl|].
  apply same_bind; [apply decode_list_while_same|]. intros; apply same_refl.
Qed.

Lemma decode_dict_while_same (n : nat) (s : bytes) (value : list (bytes * any)) :
  same_or_bad_alloc max_size memory cat (decode_dict_while_alloc max_size memory cat dec_a n s value)
       (decode_dict_while max_size cat dec n s value).
Proof.
  revert s value. induction n as [|n IH]; intros s value;
    destruct s as [|c s']; cbn [decode_dict_while_alloc decode_dict_while];
    try apply same_refl.
  destruct (Ascii.eqb c "e"); [apply same_refl|].
  destruct (negb (isdigit c)); [apply same_refl|].
  apply same_bind; [apply decode_str_alloc_same|]. intros k s1.
  apply same_bind; [apply dec_same|]. intros v s2.
  destruct (emplace k v value) as [value' [found inserted]].
  destruct (negb inserted); [apply same_refl|apply IH].
Qed.

Lemma decode_dict_same (s : bytes) :
  same_or_bad_alloc max_size memory cat (decode_dict_alloc max_size memory cat dec_a s) (decode_dict max_size cat dec s).
Proof.
  unfold decode_dict_alloc, decode_dict. destruct s as [|c s1]; [apply same_refl|].
  destruct (negb (Ascii.eqb c "d")); [apply same_refl|].
  apply same_bind; [apply decode_dict_while_same|]. intros; apply same_refl.
Qed.

End SameOrBadAlloc.

(** The allocator makes one difference for the decoder: the
    [std::bad_alloc] of the reader for input iterators, where it grants
    less than [max_size]. *)
Lemma decode_data_alloc_same (max_size memory : Z) (cat : iterator_category)
  (fuel : nat) (s : bytes) :
  same_or_bad_alloc max_size memory cat
    (decode_data_alloc max_size memory cat fuel s) (decode_data max_size cat fuel s).
Proof.
  revert s. induction fuel as [|fuel IH]; intros s; [now left|].
  rewrite decode_data_alloc_unfold, decode_data_unfold.
  destruct s as [|c s']; [now left|].
  destruct (Ascii.eqb c "i"); [now left|].
  destruct (Ascii.eqb c "l").
  { apply same_bind; [now apply decode_list_same|]. intros; now left. }
  destruct (Ascii.eqb c "d").
  { apply same_bind; [now apply decode_dict_same|]. intros; now left. }
  destruct (isdigit c); [|now left].
  apply same_bind; [apply decode_str_alloc_same|]. intros; now left.
Qed.

(** Without the suffix, the decoder is the one for an allocator that grants
    whatever [max_size] allows. *)
Lemma decode_data_alloc_granted (max_size memory : Z) (cat : iterator_category)
  (fuel : nat) (s : bytes) :
  max_size <= memory ->
  decode_data_alloc max_size memory cat fuel s = decode_data max_size cat fuel s.
Proof.
  intros Hmem.
  destruct (decode_data_alloc_same max_size memory cat fuel s)
    as [H|(_ & H & _)]; [exact H|lia].
Qed.

Lemma decode_data_alloc_forward (max_size memory : Z) (fuel : nat) (s : bytes) :
  decode_data_alloc max_size memory forward_iterator_tag fuel s
  = decode_data max_size forward_iterator_tag fuel s.
Proof.
  destruct (decode_data_alloc_same max_size memory forward_iterator_tag fuel s)
    as [H|(H & _)]; [exact H|discriminate].
Qed.

(** ** The two copying readers *)

Lemma agree_refl (A : Type) (o : outcome A) : agree o o.
Proof. now left. Qed.

Lemma agree_bind (A B : Type) (o1 o2 : outcome A) (k1 k2 : A -> bytes -> outcome B) :
  agree o1 o2 ->
  (forall a r, o1 = Ok a r -> agree (k1 a r) (k2 a r)) ->
  agree (bind o1 k1) (bind o2 k2).
Proof.
  intros [->|[-> H]] Hk.
  - destruct o2; cbn [bind]; auto using agree_refl.
  - right. split; [reflexivity|]. destruct H as [->| ->]; [now left|now right].
Qed.

Section Agree.

Variable max_size : Z.
Variable memory : Z.
Hypothesis max_size_ptrdiff : max_size < 2 ^ 63.

Lemma str_reader_agree (s : bytes) (len : Z) :
  0 <= len < 2 ^ 64 -> Z.of_nat (length s) <= memory ->
  agree (str_reader_forward max_size s len)
        (str_reader_input_alloc max_size memory s len).
Proof.
  intros Hlen Hmem. unfold str_reader_forward, str_reader_input_alloc, to_ptrdiff.
  destruct (Z.ltb_spec max_size len) as [Hbig|Hfit].
  - destruct (_ <? _); [right; split; [reflexivity|now left]|now left].
  - rewrite wrap64_small by lia.
    destruct (Z.ltb_spec memory len).
    + destruct (Z.ltb_spec (Z.of_nat (length s)) len); [|lia].
      right. split; [reflexivity|now right].
    + rewrite read_bytes_spec.
      destruct (Z.ltb_spec (Z.of_nat (length s)) len);
        destruct (Nat.ltb_spec (length s) (Z.to_nat len)); try lia; now left.
Qed.

Lemma decode_str_agree (s : bytes) :
  Z.of_nat (length s) <= memory ->
  agree (decode_str max_size false forward_iterator_tag s)
        (decode_str_alloc max_size memory false input_iterator_tag s).
Proof.
  intros Hmem. unfold decode_str, decode_str_alloc. destruct s as [|c s']; [now left|].
  destruct (negb (isdigit c)); [now left|].
  pose proof (decode_str_digits_size 0 (c :: s') ltac:(lia)) as Hlen.
  destruct (decode_str_digits_rest 0 (c :: s')) as [p Hp].
  destruct (decode_str_digits 0 (c :: s')) as [len s1]. cbn [fst snd] in Hlen, Hp.
  destruct s1 as [|c1 s2]; [now left|].
  destruct (negb (Ascii.eqb c1 ":")); [now left|].
  apply str_reader_agree; [assumption|].
  apply (f_equal (@length ascii)) in Hp. rewrite length_app in Hp.
  cbn [length] in *. lia.
Qed.

(** The loops, for two versions of [decode_data] that agree on every input
    of length at most [L], the first of which finishes there. *)
Variables dec1 dec2 : bytes -> outcome any.
Variable L : nat.
Hypothesis L_memory : Z.of_nat L <= memory.
Hypothesis dec1_finishes : forall s, (length s <= L)%nat -> finishes s (dec1 s).
Hypothesis dec_agree : forall s, (length s <= L)%nat -> agree (dec1 s) (dec2 s).

Lemma finishes_length (A : Type) (s : bytes) (a : A) (r : bytes) :
  finishes s (Ok a r) -> (length r <= length s)%nat.
Proof. intros (p & -> & _). rewrite length_app. lia. Qed.

Lemma decode_list_while_agree (n : nat) (s : bytes) (value : list any) :
  (length s <= L)%nat ->
  agree (decode_list_while dec1 n s value) (decode_list_while dec2 n s value).
Proof.
  revert s value. induction n as [|n IH]; intros s value HL;
    destruct s as [|c s']; cbn [decode_list_while]; try apply agree_refl.
  destruct (Ascii.eqb c "e"); [apply agree_refl|].
  apply agree_bind; [now apply dec_agree|]. intros v r Hd. apply IH.
  pose proof (dec1_finishes (c :: s') HL) as Hf. rewrite Hd in Hf.
  apply finishes_length in Hf. lia.
Qed.

Lemma decode_list_agree (c : ascii) (s : bytes) :
  (length s <= L)%nat ->
  agree (decode_list dec1 (c :: s)) (decode_list dec2 (c :: s)).
Proof.
  intros HL. unfold decode_list.
  destruct (negb (Ascii.eqb c "l")); [apply agree_refl|].
  apply agree_bind; [now apply decode_list_while_agree|]. intros; apply agree_refl.
Qed.

Lemma decode_dict_while_agree (n : nat) (s : bytes) (value : list (bytes * any)) :
  (length s <= L)%nat ->
  agree (decode_dict_while max_size forward_iterator_tag dec1 n s value)
        (decode_dict_while_alloc max_size memory input_iterator_tag dec2 n s value).
Proof.
  revert s value. induction n as [|n IH]; intros s value HL;
    destruct s as [|c s']; cbn [decode_dict_while decode_dict_while_alloc];
    try apply agree_refl.
  destruct (Ascii.eqb c "e"); [apply agree_refl|].
  destruct (isdigit c) eqn:Hc; cbn [negb]; [|apply agree_refl].
  apply agree_bind; [apply decode_str_agree; lia|]. intros k s1 Hk.
  pose proof (decode_str_finishes max_size forward_iterator_tag c s' Hc) as Hf.
  rewrite Hk in Hf. apply finishes_length in Hf.
  apply agree_bind; [apply dec_agree; lia|]. intros v s2 Hd.
  pose proof (dec1_finishes s1 ltac:(lia)) as Hf'. rewrite Hd in Hf'.
  apply finishes_length in Hf'.
  destruct (emplace k v value) as [value' [found inserted]].
  destruct (negb inserted); [apply agree_refl|apply IH; lia].
Qed.

Lemma decode_dict_agree (c : ascii) (s : bytes) :
  (length s <= L)%nat ->
  agree (decode_dict max_size forward_iterator_tag dec1 (c :: s))
        (decode_dict_alloc max_size memory input_iterator_tag dec2 (c :: s)).
Proof.
  intros HL. unfold decode_dict, decode_dict_alloc.
  destruct (negb (Ascii.eqb c "d")); [apply agree_refl|].
  apply agree_bind; [now apply decode_dict_while_agree|]. intros; apply agree_refl.
Qed.

End Agree.

Lemma decode_data_agree (max_size memory : Z) (fuel : nat) (s : bytes) :
  max_size < 2 ^ 63 ->
  (length s < fuel)%nat -> Z.of_nat (length s) <= memory ->
  agree (decode_data max_size forward_iterator_tag fuel s)
        (decode_data_alloc max_size memory input_iterator_tag fuel s).
Proof.
  intros Hmax. revert s. induction fuel as [|fuel IH]; intros s Hfuel Hmem;
    [inversion Hfuel|].
  rewrite decode_data_unfold, decode_data_alloc_unfold.
  destruct s as [|c s']; [apply agree_refl|]. cbn [length] in Hfuel, Hmem.
  assert (Hfin : forall r, (length r <= length s')%nat ->
                   finishes r (decode_data max_size forward_iterator_tag fuel r)).
  { intros r Hr. apply decode_data_finishes. lia. }
  assert (Hagree : forall r, (length r <= length s')%nat ->
                     agree (decode_data max_size forward_iterator_tag fuel r)
                       (decode_data_alloc max_size memory input_iterator_tag fuel r)).
  { intros r Hr. apply IH; lia. }
  destruct (Ascii.eqb c "i"); [apply agree_refl|].
  destruct (Ascii.eqb c "l").
  { apply agree_bind; [|intros; apply agree_refl].
    apply decode_list_agree with (L := length s'); auto. }
  destruct (Ascii.eqb c "d").
  { apply agree_bind; [|intros; apply agree_refl].
    apply decode_dict_agree with (L := length s'); auto. lia. }
  destruct (isdigit c); [|apply agree_refl].
  apply agree_bind; [|intros; apply agree_refl].
  apply decode_str_agree; [assumption|cbn [length]; lia].
Qed.

(** X3: the reader for forward iterators, which compares the length with
    the distance to [end], and the reader for input iterators, which builds
    the string and then looks at [end] before every byte, make no
    difference for the decoder on an input that the allocator could hold:
    both return the same value and stop at the same place, or both end the
    same way, except that for a declared length beyond the input the first
    throws "unexpected end of string" where the second, if the length is
    also beyond [max_size] or beyond what the allocator grants, throws the
    [std::length_error] or the [std::bad_alloc] of the constructor. *)
Theorem decode_forward_input_agree (max_size memory : Z) (s : bytes) :
  max_size < 2 ^ 63 ->
  Z.of_nat (length s) <= memory ->
  agree (decode_range_alloc max_size memory forward_iterator_tag s)
        (decode_range_alloc max_size memory input_iterator_tag s).
Proof.
  intros Hmax Hmem. unfold decode_range_alloc. rewrite decode_data_alloc_forward.
  apply decode_data_agree; [assumption|lia|assumption].
Qed.

Lemma decode_forward_input_agree_witness :
  agree (decode_range_alloc example_max_size example_memory forward_iterator_tag
           (lit "l2:abi7e999999999999999999:x"))
        (decode_range_alloc example_max_size example_memory input_iterator_tag
           (lit "l2:abi7e999999999999999999:x")).
Proof.
  apply (decode_forward_input_agree example_max_size example_memory
           (lit "l2:abi7e999999999999999999:x")); [reflexivity|].
  vm_compute. discriminate.
Defined.

(** X4: in view mode [decode_str] returns the same bytes and stops at the
    same place as in copy mode, whenever copy mode returns; and where no
    more bytes are left than a [std::string] can hold, copy mode returns
    whenever view mode does. *)
Theorem decode_str_view_copy (max_size : Z) (cat : iterator_category)
  (s value r : bytes) :
  max_size < 2 ^ 63 ->
  (decode_str max_size false forward_iterator_tag s = Ok value r ->
   decode_str max_size true cat s = Ok value r)
  /\ (Z.of_nat (length s) <= max_size ->
      decode_str max_size true cat s = Ok value r ->
      decode_str max_size false forward_iterator_tag s = Ok value r).
Proof.
  intros Hmax. unfold decode_str. destruct s as [|c s']; [split; [easy|discriminate]|].
  destruct (negb (isdigit c)); [split; [easy|discriminate]|].
  pose proof (decode_str_digits_size 0 (c :: s') ltac:(lia)) as Hlen.
  destruct (decode_str_digits_rest 0 (c :: s')) as [p Hp].
  destruct (decode_str_digits 0 (c :: s')) as [len s1]. cbn [fst snd] in Hlen, Hp.
  destruct s1 as [|c1 s2]; [split; [easy|discriminate]|].
  destruct (negb (Ascii.eqb c1 ":")); [split; [easy|discriminate]|].
  unfold str_reader, str_reader_view, str_reader_forward, to_ptrdiff.
  split.
  - destruct (Z.ltb_spec (Z.of_nat (length s2)) (wrap64 len)); [discriminate|].
    destruct (Z.ltb_spec max_size len); [discriminate|].
    rewrite wrap64_small by lia.
    destruct (Z.ltb_spec len 0); [lia|]. easy.
  - intros Hs.
    destruct (Z.ltb_spec (Z.of_nat (length s2)) (wrap64 len)); [discriminate|].
    destruct (Z.ltb_spec (wrap64 len) 0) as [|Hpos]; [discriminate|].
    assert (Hsmall : len < 2 ^ 63).
    { destruct (Z_lt_le_dec len (2 ^ 63)) as [|Hbig]; [assumption|].
      exfalso. unfold wrap64 in Hpos.
      replace (len + 2 ^ 63) with (len - 2 ^ 63 + 1 * 2 ^ 64) in Hpos by lia.
      rewrite Z.mod_add, Z.mod_small in Hpos by lia. lia. }
    rewrite wrap64_small in * by lia.
    assert (Hs2 : (length s2 < length (c :: s'))%nat).
    { rewrite Hp, length_app. cbn [length]. lia. }
    destruct (Z.ltb_spec max_size len); [lia|]. easy.
Qed.

Lemma decode_str_view_copy_witness :
  decode_str example_max_size true forward_iterator_tag (lit "4:spami1e")
  = Ok (lit "spam") (lit "i1e").
Proof.
  apply (proj1 (decode_str_view_copy example_max_size forward_iterator_tag
                  (lit "4:spami1e") (lit "spam") (lit "i1e") eq_refl)).
  reflexivity.
Defined.

(** ** When the encoder throws *)

Lemma list_encoder_add_holds (l : list any) :
  Forall (fun v => forall os,
            (holds_values v = true -> exists w, encode_any os v = (os ++ w, None))
            /\ (holds_values v = false ->
                exists w, encode_any os v = (os ++ w, Some unexpected_type))) l ->
  forall os,
    (forallb holds_values l = true ->
     exists w, list_encoder_add (fun os i => encode_any os i) os l = (os ++ w, None))
    /\ (forallb holds_values l = false ->
        exists w, list_encoder_add (fun os i => encode_any os i) os l
                  = (os ++ w, Some unexpected_type)).
Proof.
  induction 1 as [|v l Hv _ IH]; intros os; cbn [forallb list_encoder_add].
  - split; [|discriminate]. exists []. now rewrite app_nil_r.
  - destruct (Hv os) as [Hgood Hbad]. destruct (holds_values v).
    + destruct (Hgood eq_refl) as [w ->]. cbn [andb].
      destruct (IH (os ++ w)) as [IHgood IHbad]. split; intros Hl.
      * destruct (IHgood Hl) as [w' ->]. exists (w ++ w'). now rewrite app_assoc.
      * destruct (IHbad Hl) as [w' ->]. exists (w ++ w'). now rewrite app_assoc.
    + destruct (Hbad eq_refl) as [w ->]. cbn [andb]. split; [discriminate|].
      intros _. now exists w.
Qed.

Lemma dict_encoder_add_holds (d : list (bytes * any)) :
  Forall (fun kv => forall os,
            (holds_values (snd kv) = true ->
             exists w, encode_any os (snd kv) = (os ++ w, None))
            /\ (holds_values (snd kv) = false ->
                exists w, encode_any os (snd kv) = (os ++ w, Some unexpected_type))) d ->
  forall os,
    (forallb (fun kv => let '(_, i) := kv in holds_values i) d = true ->
     exists w, dict_encoder_add (fun os i => encode_any os i) os d = (os ++ w, None))
    /\ (forallb (fun kv => let '(_, i) := kv in holds_values i) d = false ->
        exists w, dict_encoder_add (fun os i => encode_any os i) os d
                  = (os ++ w, Some unexpected_type)).
Proof.
  induction 1 as [|[k v] d Hv _ IH]; intros os; cbn [forallb dict_encoder_add].
  - split; [|discriminate]. exists []. now rewrite app_nil_r.
  - cbn [snd] in Hv. rewrite (encode_string_view_app os k).
    destruct (Hv (os ++ encode_string_view [] k)) as [Hgood Hbad].
    destruct (holds_values v).
    + destruct (Hgood eq_refl) as [w ->]. cbn [andb].
      destruct (IH ((os ++ encode_string_view [] k) ++ w)) as [IHgood IHbad].
      split; intros Hl.
      * destruct (IHgood Hl) as [w' ->]. exists (encode_string_view [] k ++ w ++ w').
        now rewrite <- !app_assoc.
      * destruct (IHbad Hl) as [w' ->]. exists (encode_string_view [] k ++ w ++ w').
        now rewrite <- !app_assoc.
    + destruct (Hbad eq_refl) as [w ->]. cbn [andb]. split; [discriminate|].
      intros _. exists (encode_string_view [] k ++ w). now rewrite <- !app_assoc.
Qed.

Lemma encode_any_holds (v : any) (os : ostream) :
  (holds_values v = true -> exists w, encode_any os v = (os ++ w, None))
  /\ (holds_values v = false ->
      exists w, encode_any os v = (os ++ w, Some unexpected_type)).
Proof.
  revert os. induction v as [|n|s|l IH|d IH|] using any_ind; intros os;
    cbn [holds_values encode_any];
    [| | | | |split; [discriminate|]; intros _; exists []; now rewrite app_nil_r].
  - split; [discriminate|]. intros _. exists []. now rewrite app_nil_r.
  - split; [|discriminate]. intros _. exists (encode_integer [] n).
    now rewrite encode_integer_app.
  - split; [|discriminate]. intros _. exists (encode_string_view [] s).
    now rewrite encode_string_view_app.
  - unfold encode_vector.
    destruct (list_encoder_add_holds l IH (os ++ lit "l")) as [Hgood Hbad].
    split; intros Hl.
    + destruct (Hgood Hl) as [w ->]. exists (lit "l" ++ w ++ lit "e").
      now rewrite <- !app_assoc.
    + destruct (Hbad Hl) as [w ->]. exists (lit "l" ++ w). now rewrite <- !app_assoc.
  - unfold encode_map.
    destruct (dict_encoder_add_holds d IH (os ++ lit "d")) as [Hgood Hbad].
    split; intros Hl.
    + destruct (Hgood Hl) as [w ->]. exists (lit "d" ++ w ++ lit "e").
      now rewrite <- !app_assoc.
    + destruct (Hbad Hl) as [w ->]. exists (lit "d" ++ w). now rewrite <- !app_assoc.
Qed.

(** X5: [encode] throws exactly when an [any] somewhere inside the value is
    empty or holds a value of another type than [integer], [string], [list]
    and [dict], and "unexpected type" is the exception; otherwise it
    returns bytes.  In both cases the stream keeps what it held before the
    call. *)
Theorem encode_throws_on_empty_any (v : any) :
  (holds_values v = true -> exists w, encode v = inl w)
  /\ (holds_values v = false -> encode v = inr unexpected_type)
  /\ (forall os, exists w, fst (encode_any os v) = os ++ w).
Proof.
  split; [|split].
  - intros H. destruct (proj1 (encode_any_holds v []) H) as [w Hw].
    exists w. unfold encode. now rewrite Hw.
  - intros H. destruct (proj2 (encode_any_holds v []) H) as [w Hw].
    unfold encode. now rewrite Hw.
  - intros os. destruct (holds_values v) eqn:H.
    + destruct (proj1 (encode_any_holds v os) H) as [w Hw]. exists w. now rewrite Hw.
    + destruct (proj2 (encode_any_holds v os) H) as [w Hw]. exists w. now rewrite Hw.
Qed.

Lemma encode_throws_on_empty_any_witness :
  encode (any_list [any_integer 1; any_dict [(lit "k", any_other)]; any_integer 2])
  = inr unexpected_type
  /\ encode (any_list [any_list [any_empty]]) = inr unexpected_type.
Proof.
  split.
  - apply (proj1 (proj2 (encode_throws_on_empty_any
      (any_list [any_integer 1; any_dict [(lit "k", any_other)]; any_integer 2])))).
    reflexivity.
  - apply (proj1 (proj2 (encode_throws_on_empty_any (any_list [any_list [any_empty]])))).
    reflexivity.
Defined.

(** X6: two different values in canonical form have different encodings. *)
Theorem encode_injective (max_size : Z) (v1 v2 : any) :
  max_size < 2 ^ 63 ->
  canonical max_size v1 = true ->
  canonical max_size v2 = true ->
  v1 <> v2 ->
  encode v1 <> encode v2.
Proof.
  intros Hmax H1 H2 Hne Heq. apply Hne.
  destruct (encode_any_token max_size v1 H1) as (w1 & Hw1 & Ht1).
  destruct (encode_any_token max_size v2 H2) as (w2 & Hw2 & Ht2).
  unfold encode in Heq. rewrite Hw1, Hw2 in Heq. cbn [app] in Heq.
  injection Heq as ->.
  pose proof (decode_range_token max_size Hmax forward_iterator_tag w2 v1 [] Ht1) as D1.
  pose proof (decode_range_token max_size Hmax forward_iterator_tag w2 v2 [] Ht2) as D2.
  rewrite D1 in D2. now injection D2.
Qed.

Lemma encode_injective_witness :
  encode (any_list [any_integer 12]) <> encode (any_list [any_integer 1; any_integer 2]).
Proof.
  apply (encode_injective example_max_size); [reflexivity..|discriminate].
Defined.

(** ** Errors of the decoder inside strings and dicts *)

(** X7: digits that are not followed by a colon are no string: with another
    byte behind them the decoder throws "expected ':'", and at the end of
    the input "unexpected end of string". *)
Theorem decode_str_needs_colon (max_size : Z) (cat : iterator_category) (ds : bytes) :
  ds <> [] -> forallb isdigit ds = true ->
  (forall x t, isdigit x = false -> Ascii.eqb x ":" = false ->
     decode_range max_size cat (ds ++ x :: t) = Throw expected_colon)
  /\ decode_range max_size cat ds = Throw unexpected_end_of_string.
Proof.
  intros Hne Hds.
  assert (Hrun : forall s, stops s = true ->
            decode_str_digits 0 (ds ++ s) = (size_t (number ds), s)).
  { intros s Hs. change 0 with (size_t 0) at 1. now apply decode_str_digits_run. }
  destruct ds as [|d ds']; [contradiction|].
  pose proof Hds as Hd. cbn [forallb] in Hd. apply andb_true_iff in Hd as [Hd _].
  split.
  - intros x t Hx Hcolon. specialize (Hrun (x :: t)). cbn [stops] in Hrun.
    rewrite Hx in Hrun. specialize (Hrun eq_refl).
    unfold decode_range. rewrite decode_data_unfold. cbn [app] in *.
    rewrite (digit_not d "i" Hd eq_refl), (digit_not d "l" Hd eq_refl),
      (digit_not d "d" Hd eq_refl), Hd.
    unfold decode_str. rewrite Hd, Hrun, Hcolon. reflexivity.
  - specialize (Hrun [] eq_refl). rewrite app_nil_r in Hrun.
    unfold decode_range. rewrite decode_data_unfold.
    rewrite (digit_not d "i" Hd eq_refl), (digit_not d "l" Hd eq_refl),
      (digit_not d "d" Hd eq_refl), Hd.
    unfold decode_str. rewrite Hd, Hrun. reflexivity.
Qed.

Lemma decode_str_needs_colon_witness :
  decode_range example_max_size forward_iterator_tag (lit "4spam") = Throw expected_colon
  /\ decode_range example_max_size forward_iterator_tag (lit "42")
     = Throw unexpected_end_of_string.
Proof.
  pose proof (decode_str_needs_colon example_max_size forward_iterator_tag (lit "4")
                ltac:(discriminate) eq_refl) as [H _].
  pose proof (decode_str_needs_colon example_max_size forward_iterator_tag (lit "42")
                ltac:(discriminate) eq_refl) as [_ H'].
  split; [apply (H "s"%char (lit "pam")); reflexivity|exact H'].
Defined.

(** What the loops do behind well-formed entries with fresh keys: the
    exceptions that end a dict. *)
Lemma decode_range_dict_entries (max_size : Z) (cat : iterator_category)
  (ws : bytes) (kvs : list (bytes * any)) (r : bytes)
  (o : outcome (list (bytes * any))) :
  max_size < 2 ^ 63 ->
  token_pairs max_size ws kvs ->
  NoDup (map fst kvs) ->
  (forall n, decode_dict_while max_size cat
               (decode_data max_size cat (length ("d"%char :: ws ++ r)))
               (S n) r (map_of_list kvs) = o) ->
  r <> [] ->
  decode_range max_size cat ("d"%char :: ws ++ r) =
    do (d, r') <- (do (value, s2) <- o;
                   match s2 with
                   | [] => Throw unexpected_end_of_string
                   | _ :: s3 => Ok value s3
                   end);
    Ok (any_dict d) r'.
Proof.
  intros Hmax Hws Hnodup Ho Hr. unfold decode_range.
  rewrite decode_data_unfold. cbn [Ascii.eqb Bool.eqb andb].
  set (fuel := length ("d"%char :: ws ++ r)) in *.
  assert (Hfuel : (length ws < fuel)%nat)
    by (subst fuel; cbn [length]; rewrite length_app; lia).
  unfold decode_dict. cbn [Ascii.eqb Bool.eqb andb negb].
  pose proof (token_pairs_length _ _ _ Hws) as Hlen.
  replace (length (ws ++ r))
    with (length kvs + S (length (ws ++ r) - length kvs - 1))%nat
    by (rewrite length_app; destruct r; [contradiction|cbn [length]; lia]).
  rewrite decode_dict_while_tokens by assumption.
  now rewrite Ho.
Qed.

(** X8: behind the entries of a dict the decoder wants a string or the
    ['e']: any other byte there makes it throw "expected string token".  So
    a key that is an integer or a list is refused. *)
Theorem decode_dict_key_must_be_string (max_size : Z) (cat : iterator_category)
  (ws : bytes) (kvs : list (bytes * any)) (c : ascii) (t : bytes) :
  max_size < 2 ^ 63 ->
  token_pairs max_size ws kvs ->
  NoDup (map fst kvs) ->
  isdigit c = false -> Ascii.eqb c "e" = false ->
  decode_range max_size cat ("d"%char :: ws ++ c :: t) = Throw expected_string_token.
Proof.
  intros Hmax Hws Hnodup Hc He.
  rewrite (decode_range_dict_entries max_size cat ws kvs (c :: t)
             (Throw expected_string_token)); try easy.
  intros n. cbn [decode_dict_while]. now rewrite He, Hc.
Qed.

Lemma decode_dict_key_must_be_string_witness :
  decode_range example_max_size forward_iterator_tag (lit "d1:ai1ei2e1:be")
  = Throw expected_string_token.
Proof.
  apply (decode_dict_key_must_be_string example_max_size forward_iterator_tag
           (lit "1:ai1e") [(lit "a", any_integer 1)] "i"%char (lit "2e1:be")).
  - reflexivity.
  - apply (token_pairs_cons _ (lit "1:a") (lit "i1e") [] (lit "a") (any_integer 1) []).
    + string_token_of (lit "1") (lit "a").
    + integer_token_of false (lit "1") 1.
    + apply token_pairs_nil.
  - repeat constructor. intros [].
  - reflexivity.
  - reflexivity.
Defined.

(** A key that the dict holds already, behind well-formed entries. *)
Lemma decode_range_repeated_key (max_size : Z) (cat : iterator_category)
  (ws : bytes) (kvs : list (bytes * any)) (kw k w : bytes) (v : any) (t : bytes) :
  max_size < 2 ^ 63 ->
  token_pairs max_size ws kvs ->
  NoDup (map fst kvs) ->
  In k (map fst kvs) ->
  string_token max_size kw k ->
  token max_size w v ->
  decode_range max_size cat ("d"%char :: ws ++ kw ++ w ++ t) = Throw (duplicated_key k).
Proof.
  intros Hmax Hws Hnodup Hin Hk Hw.
  destruct (string_token_head _ _ _ Hk) as (c & kw' & Heq & Hc).
  rewrite (decode_range_dict_entries max_size cat ws kvs (kw ++ w ++ t)
             (Throw (duplicated_key k))); try easy.
  - intros n.
    pose proof (decode_str_token max_size Hmax cat kw k (w ++ t) Hk) as Hstr.
    pose proof (proj1 (decode_data_token_mut max_size Hmax cat) w v Hw
                  (length ("d"%char :: ws ++ kw ++ w ++ t)) t) as Hval.
    specialize (Hval ltac:(cbn [length]; rewrite !length_app; lia)).
    rewrite Heq in Hstr, Hval |- *. cbn [app] in Hstr, Hval |- *.
    cbn [decode_dict_while].
    rewrite (digit_not c "e" Hc eq_refl), Hc. cbn [negb].
    rewrite Hstr. cbn [bind]. rewrite Hval. cbn [bind].
    rewrite emplace_present;
      [reflexivity|apply map_of_list_sorted|now apply map_of_list_keys].
  - rewrite Heq. discriminate.
Qed.

(** ** The encoders for lists and dicts that are built piece by piece *)

Lemma dict_encoder_add_app (T : Type) (encode_T : ostream -> T -> ostream * option error)
  (os : ostream) (a b : list (bytes * T)) :
  dict_encoder_add encode_T os (a ++ b) =
    match dict_encoder_add encode_T os a with
    | (os', None) => dict_encoder_add encode_T os' b
    | raised => raised
    end.
Proof.
  revert os. induction a as [|[k i] a IH]; intros os; cbn [app dict_encoder_add];
    [reflexivity|].
  destruct (encode_T (encode_string_view os k) i) as [os' [e|]]; [reflexivity|apply IH].
Qed.

Section Builders.

Variable max_size : Z.
Hypothesis max_size_ptrdiff : max_size < 2 ^ 63.
Variable cat : iterator_category.

Lemma list_encoder_add_canonical (l : list any) :
  forallb (canonical max_size) l = true ->
  exists ws, (forall os, list_encoder_add (fun os i => encode_any os i) os l
                         = (os ++ ws, None))
             /\ token_seq max_size ws l.
Proof.
  apply list_encoder_add_tokens. apply Forall_forall. intros v _.
  apply encode_any_token.
Qed.

Lemma dict_encoder_add_canonical (d : list (bytes * any)) :
  forallb (fun kv => let '(k, i) := kv in
                     (Z.of_nat (length k) <=? max_size) && canonical max_size i) d
  = true ->
  exists ws, (forall os, dict_encoder_add (fun os i => encode_any os i) os d
                         = (os ++ ws, None))
             /\ token_pairs max_size ws d.
Proof.
  apply dict_encoder_add_tokens. apply Forall_forall. intros kv _.
  apply encode_any_token.
Qed.

End Builders.

(** X9: a list that is built with [list_encoder] from values in canonical
    form is complete only after [end()]: the decoder refuses what the
    stream holds before with "unexpected end of string", and returns the
    list of the values, in the order they were added, from what it holds
    after.  [encode_list] writes the same bytes. *)
Theorem list_encoder_needs_end (max_size : Z) (cat : iterator_category)
  (t : list any) :
  max_size < 2 ^ 63 ->
  forallb (canonical max_size) t = true ->
  exists w,
    list_encoder_add (fun os i => encode_any os i) (list_encoder []) t = (w, None)
    /\ decode_range max_size cat w = Throw unexpected_end_of_string
    /\ decode_range max_size cat (list_encoder_end w) = Ok (any_list t) []
    /\ encode_list [] t = (list_encoder_end w, None).
Proof.
  intros Hmax Hcan.
  destruct (list_encoder_add_canonical max_size t Hcan) as (ws & Hws & Htok).
  exists ("l"%char :: ws). split; [|split; [|split]].
  - now rewrite Hws.
  - rewrite <- (app_nil_r ws).
    now rewrite (decode_range_list max_size Hmax cat ws t []).
  - unfold list_encoder_end. cbn [app lit list_ascii_of_string].
    now rewrite (decode_range_list max_size Hmax cat ws t ["e"%char]).
  - unfold encode_list. now rewrite Hws.
Qed.

Lemma list_encoder_needs_end_witness :
  exists w,
    list_encoder_add (fun os i => encode_any os i) (list_encoder [])
      [any_string (lit "spam"); any_string (lit "eggs")] = (w, None)
    /\ decode_range example_max_size forward_iterator_tag w
       = Throw unexpected_end_of_string
    /\ decode_range example_max_size forward_iterator_tag (list_encoder_end w)
       = Ok (any_list [any_string (lit "spam"); any_string (lit "eggs")]) []
    /\ encode_list [] [any_string (lit "spam"); any_string (lit "eggs")]
       = (list_encoder_end w, None).
Proof.
  apply (list_encoder_needs_end example_max_size forward_iterator_tag); reflexivity.
Defined.

(** X10: [encode_dict] writes the entries in the order of its arguments and
    checks nothing.  When the keys are pairwise different, in whatever
    order, the decoder returns from these bytes the map of the entries,
    which has them in ascending key order; when a key comes a second time,
    the decoder refuses the bytes with "duplicated key in dict: " and this
    key. *)
Theorem encode_dict_then_decode (max_size : Z) (cat : iterator_category)
  (t : list (bytes * any)) :
  max_size < 2 ^ 63 ->
  forallb (fun kv => let '(k, i) := kv in
                     (Z.of_nat (length k) <=? max_size) && canonical max_size i) t
  = true ->
  exists w,
    encode_dict [] t = (w, None)
    /\ (NoDup (map fst t) ->
        decode_range max_size cat w = Ok (any_dict (map_of_list t)) [])
    /\ (forall t1 k v t2,
          t = t1 ++ (k, v) :: t2 -> NoDup (map fst t1) -> In k (map fst t1) ->
          decode_range max_size cat w = Throw (duplicated_key k)).
Proof.
  intros Hmax Hcan.
  destruct (dict_encoder_add_canonical max_size t Hcan) as (ws & Hws & Htok).
  exists ("d"%char :: ws ++ ["e"%char]). split; [|split].
  - unfold encode_dict, dict_encoder, dict_encoder_end. rewrite Hws. reflexivity.
  - intros Hnodup.
    rewrite <- (app_nil_r ("d"%char :: ws ++ ["e"%char])).
    apply decode_range_token; [assumption|]. now constructor.
  - intros t1 k v t2 -> Hnodup Hin.
    rewrite forallb_app in Hcan. apply andb_true_iff in Hcan as [Hcan1 Hcan2].
    cbn [forallb] in Hcan2. apply andb_true_iff in Hcan2 as [Hkv Hcan2].
    apply andb_true_iff in Hkv as [Hk Hv]. apply Z.leb_le in Hk.
    destruct (dict_encoder_add_canonical max_size t1 Hcan1) as (ws1 & Hws1 & Htok1).
    destruct (dict_encoder_add_canonical max_size t2 Hcan2) as (ws2 & Hws2 & Htok2).
    destruct (encode_any_token max_size v Hv) as (vw & Hvw & Htokv).
    assert (Heq : ws = ws1 ++ encode_string_view [] k ++ vw ++ ws2).
    { specialize (Hws []). rewrite dict_encoder_add_app, Hws1 in Hws.
      cbn [dict_encoder_add] in Hws.
      rewrite Hvw, Hws2, encode_string_view_app in Hws.
      cbn [app] in Hws. injection Hws as Hws. rewrite <- Hws.
      now rewrite <- !app_assoc. }
    rewrite Heq, <- !app_assoc.
    apply decode_range_repeated_key with (kvs := t1) (v := v); try assumption.
    now apply encode_string_view_token.
Qed.

Lemma encode_dict_then_decode_witness :
  exists w,
    encode_dict [] [(lit "spam", any_integer 1); (lit "cow", any_integer 2);
                    (lit "spam", any_integer 3)] = (w, None)
    /\ decode_range example_max_size forward_iterator_tag w
       = Throw (duplicated_key (lit "spam")).
Proof.
  destruct (encode_dict_then_decode example_max_size forward_iterator_tag
              [(lit "spam", any_integer 1); (lit "cow", any_integer 2);
               (lit "spam", any_integer 3)] eq_refl eq_refl) as (w & Hw & _ & Hdup).
  exists w. split; [exact Hw|].
  apply (Hdup [(lit "spam", any_integer 1); (lit "cow", any_integer 2)]
           (lit "spam") (any_integer 3) []).
  - reflexivity.
  - repeat constructor; cbn; intuition discriminate.
  - left. reflexivity.
Defined.

(** ** Reading values from a stream *)

(** X11: from a stream that holds a well-formed value, [decode] returns
    this value and leaves in the stream what follows it; with [check_eof]
    it sets [eofbit] exactly when nothing follows, with [no_check_eof]
    never. *)
Theorem decode_istream_value (max_size : Z) (e : eof_behavior)
  (w : bytes) (v : any) (t : bytes) :
  max_size < 2 ^ 63 ->
  token max_size w v ->
  decode_istream max_size (w ++ t) e
  = (Ok v t, match e, t with check_eof, [] => true | _, _ => false end).
Proof.
  intros Hmax Hw. unfold decode_istream.
  now rewrite (decode_range_token max_size Hmax input_iterator_tag w v t Hw).
Qed.

Lemma decode_istream_value_witness :
  decode_istream example_max_size (lit "i42e" ++ lit "4:spam") check_eof
  = (Ok (any_integer 42) (lit "4:spam"), false)
  /\ decode_istream example_max_size (lit "4:spam" ++ []) check_eof
     = (Ok (any_string (lit "spam")) [], true).
Proof.
  split.
  - apply (decode_istream_value example_max_size check_eof (lit "i42e")
             (any_integer 42) (lit "4:spam")); [reflexivity|].
    integer_token_of false (lit "42") 42.
  - apply (decode_istream_value example_max_size check_eof (lit "4:spam")
             (any_string (lit "spam")) []); [reflexivity|].
    apply token_string. string_token_of (lit "4") (lit "spam").
Defined.

(** ** Inputs that end too early *)

Lemma truncated_bind (A B : Type) (o : outcome A) (k : A -> bytes -> outcome B) :
  truncated o -> truncated (bind o k).
Proof. intros [->| ->]; [now left|now right]. Qed.

(** A proper prefix of a list with one more element is a prefix of the
    list. *)
Lemma prefix_snoc (A : Type) (l p q : list A) (x : A) :
  l ++ [x] = p ++ q -> q <> [] -> exists q', l = p ++ q'.
Proof.
  intros H Hq. apply app_eq_app in H as [m [[-> _]|[-> H]]]; [now exists m|].
  destruct m as [|y m].
  - exists []. now rewrite !app_nil_r.
  - exfalso. cbn [app] in H. injection H as _ H.
    symmetry in H. apply app_eq_nil in H as [_ H]. contradiction.
Qed.

(** Where the first of two lists ends inside or behind the first of two
    others with the same concatenation. *)
Lemma app_split (A : Type) (x1 x2 y1 y2 : list A) :
  x1 ++ x2 = y1 ++ y2 ->
  (exists m, y1 = x1 ++ m /\ x2 = m ++ y2)
  \/ (exists m, x1 = y1 ++ m /\ m <> []).
Proof.
  intros H. apply app_eq_app in H as [m [[E1 E2]|[E1 E2]]].
  - destruct m as [|x m].
    + left. exists []. rewrite app_nil_r in E1. cbn [app] in E2. subst.
      now rewrite app_nil_r.
    + right. now exists (x :: m).
  - left. now exists m.
Qed.

Lemma decode_str_digits_only (max_size : Z) (View : bool) (cat : iterator_category)
  (ds : bytes) :
  ds <> [] -> forallb isdigit ds = true ->
  decode_str max_size View cat ds = Throw unexpected_end_of_string.
Proof.
  intros Hne Hds.
  assert (Hrun : decode_str_digits 0 ds = (size_t (number ds), [])).
  { change 0 with (size_t 0) at 1. rewrite <- (app_nil_r ds) at 1.
    now apply decode_str_digits_run. }
  unfold decode_str. rewrite Hrun. destruct ds as [|d ds']; [contradiction|].
  cbn [forallb] in Hds. apply andb_true_iff in Hds as [Hd _]. now rewrite Hd.
Qed.

Section Truncated.

Variable max_size : Z.
Hypothesis max_size_ptrdiff : max_size < 2 ^ 63.
Variable cat : iterator_category.

(** A string token that is cut off. *)
Lemma decode_str_truncated (w s p q : bytes) :
  string_token max_size w s -> w = p ++ q -> p <> [] -> q <> [] ->
  decode_str max_size false cat p = Throw unexpected_end_of_string.
Proof.
  intros [ds s' Hne Hds Hnum Hlen] Heq Hp Hq.
  apply app_eq_app in Heq as [m [[-> Hq']|[-> Hs]]].
  - rewrite forallb_app in Hds. apply andb_true_iff in Hds as [Hds _].
    now apply decode_str_digits_only.
  - destruct m as [|c m].
    + rewrite app_nil_r. now apply decode_str_digits_only.
    + cbn [app] in Hs. injection Hs as <- ->.
      rewrite decode_str_run by assumption.
      rewrite Hnum, size_t_small by lia.
      rewrite str_reader_spec by assumption.
      rewrite length_app.
      destruct (Nat.ltb_spec (length m) (length m + length q)); [reflexivity|].
      destruct q; [contradiction|cbn [length] in *; lia].
Qed.

Lemma decode_data_digit (fuel : nat) (c : ascii) (s : bytes) :
  isdigit c = true ->
  decode_data max_size cat (S fuel) (c :: s) =
    do (v, r) <- decode_str max_size false cat (c :: s); Ok (any_string v) r.
Proof.
  intros Hc. rewrite decode_data_unfold.
  now rewrite (digit_not c "i" Hc eq_refl), (digit_not c "l" Hc eq_refl),
    (digit_not c "d" Hc eq_refl), Hc.
Qed.

Lemma decode_data_truncated_mut :
  (forall w v, token max_size w v ->
     forall p q fuel, w = p ++ q -> p <> [] -> q <> [] -> (length p < fuel)%nat ->
       truncated (decode_data max_size cat fuel p))
  /\ (forall ws vs, token_seq max_size ws vs ->
     forall p q fuel n value, ws = p ++ q -> (length p < fuel)%nat ->
       (length p <= n)%nat ->
       (exists l, decode_list_while (decode_data max_size cat fuel) n p value = Ok l [])
       \/ truncated (decode_list_while (decode_data max_size cat fuel) n p value))
  /\ (forall ws kvs, token_pairs max_size ws kvs ->
     forall p q fuel n m, ws = p ++ q -> (length p < fuel)%nat ->
       (length p <= n)%nat ->
       (forall k, In k (map fst kvs) -> ~ In k (map fst m)) ->
       NoDup (map fst kvs) ->
       (exists d, decode_dict_while max_size cat (decode_data max_size cat fuel) n p m
                  = Ok d [])
       \/ truncated (decode_dict_while max_size cat (decode_data max_size cat fuel) n p m)).
Proof.
  apply token_mutind.
  - (* integer *)
    intros neg ds n Hne Hds _ _ p q fuel Heq Hp Hq Hfuel.
    destruct fuel as [|fuel]; [inversion Hfuel|].
    destruct p as [|c p1]; [contradiction|].
    cbn [app] in Heq. injection Heq as <- Heq.
    rewrite app_assoc in Heq. apply prefix_snoc in Heq as [q' Heq]; [|assumption].
    rewrite decode_data_unfold. cbn [Ascii.eqb Bool.eqb andb]. unfold decode_int.
    apply truncated_bind.
    destruct p1 as [|c1 p2]; [now right|]. left.
    destruct neg; cbn [sign app] in Heq.
    + injection Heq as <- Heq. subst ds.
      rewrite forallb_app in Hds. apply andb_true_iff in Hds as [Hds _].
      apply (decode_int_real_end true p2); [assumption|now left].
    + subst ds. change (c1 :: p2 ++ q') with ((c1 :: p2) ++ q') in Hds.
      rewrite forallb_app in Hds. apply andb_true_iff in Hds as [Hds _].
      apply (decode_int_real_end false (c1 :: p2)); [assumption|now right].
  - (* string *)
    intros w s Hs p q fuel Heq Hp Hq Hfuel.
    destruct fuel as [|fuel]; [inversion Hfuel|].
    pose proof (decode_str_truncated w s p q Hs Heq Hp Hq) as Hd.
    destruct (string_token_head _ _ _ Hs) as (c & w' & Hw & Hc).
    destruct p as [|c' p']; [contradiction|].
    rewrite Hw in Heq. cbn [app] in Heq. injection Heq as <- _.
    rewrite decode_data_digit, Hd by assumption. now left.
  - (* list *)
    intros ws vs _ IH p q fuel Heq Hp Hq Hfuel.
    destruct fuel as [|fuel]; [inversion Hfuel|].
    destruct p as [|c p1]; [contradiction|].
    cbn [app] in Heq. injection Heq as <- Heq.
    apply prefix_snoc in Heq as [q' Heq]; [|assumption].
    rewrite decode_data_unfold. cbn [Ascii.eqb Bool.eqb andb].
    unfold decode_list. cbn [Ascii.eqb Bool.eqb andb negb].
    cbn [length] in Hfuel.
    destruct (IH p1 q' fuel (length p1) [] Heq ltac:(lia) (Nat.le_refl _))
      as [[l ->]|Ht].
    + now left.
    + now apply truncated_bind, truncated_bind.
  - (* dict *)
    intros ws kvs _ IH Hnodup p q fuel Heq Hp Hq Hfuel.
    destruct fuel as [|fuel]; [inversion Hfuel|].
    destruct p as [|c p1]; [contradiction|].
    cbn [app] in Heq. injection Heq as <- Heq.
    apply prefix_snoc in Heq as [q' Heq]; [|assumption].
    rewrite decode_data_unfold. cbn [Ascii.eqb Bool.eqb andb].
    unfold decode_dict. cbn [Ascii.eqb Bool.eqb andb negb].
    cbn [length] in Hfuel.
    destruct (IH p1 q' fuel (length p1) [] Heq ltac:(lia) (Nat.le_refl _)
                ltac:(easy) Hnodup) as [[d ->]|Ht].
    + now left.
    + now apply truncated_bind, truncated_bind.
  - (* no item *)
    intros p q fuel n value Heq _ _. symmetry in Heq.
    apply app_eq_nil in Heq as [-> _]. left. exists value. now destruct n.
  - (* one more item *)
    intros w ws v vs Hw IHw _ IHws p q fuel n value Heq Hfuel Hn.
    destruct (token_head _ _ _ Hw) as (c & w' & Hhead & Hc).
    destruct (app_split _ _ _ _ _ Heq) as [(m & -> & ->)|(m & Hwm & Hm)].
    + rewrite length_app in Hfuel, Hn.
      pose proof (proj1 (decode_data_token_mut max_size max_size_ptrdiff cat) w v Hw
                    fuel m ltac:(lia)) as Hd.
      rewrite Hhead in Hd, Hfuel, Hn |- *. cbn [app length] in Hd, Hfuel, Hn |- *.
      destruct n as [|n]; [lia|]. cbn [decode_list_while]. rewrite Hc, Hd. cbn [bind].
      apply (IHws m q); [reflexivity|lia|lia].
    + destruct p as [|c' p']; [left; exists value; now destruct n|].
      specialize (IHw (c' :: p') m fuel Hwm ltac:(discriminate) Hm Hfuel).
      rewrite Hhead in Hwm. cbn [app] in Hwm. injection Hwm as <- _.
      cbn [length] in Hn. destruct n as [|n]; [lia|]. cbn [decode_list_while].
      rewrite Hc. right. now apply truncated_bind.
  - (* no entry *)
    intros p q fuel n m Heq _ _ _ _. symmetry in Heq.
    apply app_eq_nil in Heq as [-> _]. left. exists m. now destruct n.
  - (* one more entry *)
    intros kw w ws k v kvs Hk Hw IHw _ IHws p q fuel n m Heq Hfuel Hn Hfresh Hnodup.
    destruct (string_token_head _ _ _ Hk) as (c & kw' & Hhead & Hc).
    cbn [map fst] in Hnodup, Hfresh. apply NoDup_cons_iff in Hnodup as [Hnotin Hnodup'].
    destruct (emplace_absent any k v m) as (m' & Hm' & Hkeys);
      [apply Hfresh; now left|].
    assert (Hfresh' : forall k2, In k2 (map fst kvs) -> ~ In k2 (map fst m')).
    { intros k2 Hk2 Hin. apply Hkeys in Hin as [->|Hin]; [contradiction|].
      apply (Hfresh k2); [now right|assumption]. }
    destruct p as [|c' p']; [left; exists m; now destruct n|].
    cbn [length] in Hn. destruct n as [|n]; [lia|].
    assert (Hc' : c' = c).
    { rewrite Hhead in Heq. cbn [app] in Heq. now injection Heq. }
    subst c'. cbn [decode_dict_while]. rewrite (digit_not c "e" Hc eq_refl), Hc.
    cbn [negb].
    destruct (app_split _ _ _ _ _ Heq) as [(m1 & Hp & Hrest)|(m1 & Hkw & Hm1)].
    + rewrite Hp.
      rewrite (decode_str_token max_size max_size_ptrdiff cat kw k m1 Hk). cbn [bind].
      assert (Hlen : (length m1 < length (c :: p'))%nat).
      { rewrite Hp, length_app, Hhead. cbn [length]. lia. }
      destruct (app_split _ _ _ _ _ Hrest) as [(m2 & -> & ->)|(m2 & Hwm & Hm2)].
      * rewrite length_app in Hlen.
        rewrite (proj1 (decode_data_token_mut max_size max_size_ptrdiff cat) w v Hw
                   fuel m2) by (cbn [length] in *; lia).
        cbn [bind]. rewrite Hm'. cbn [negb].
        apply (IHws m2 q); try easy; cbn [length] in *; lia.
      * destruct m1 as [|x m1].
        -- destruct fuel as [|fuel]; [inversion Hfuel|].
           change (decode_data max_size cat (S fuel) [])
             with (Ok any_empty (@nil ascii)).
           cbn [bind].
           destruct (emplace_absent any k any_empty m) as (m'' & Hm'' & _);
             [apply Hfresh; now left|].
           rewrite Hm''. cbn [negb]. left. exists m''. now destruct n.
        -- right. apply truncated_bind.
           apply (IHw (x :: m1) m2); [assumption|discriminate|assumption|].
           cbn [length] in *. lia.
    + right. apply truncated_bind. left.
      now apply (decode_str_truncated kw k (c :: p') m1).
Qed.

End Truncated.

(** X12: a well-formed value that is cut off anywhere inside is never taken
    for a value: on a proper, non-empty prefix of it the decoder throws
    "unexpected end of string"; or it reads at the end position, which it
    does only where the prefix ends with an ['i']; or, reading from an
    input iterator with an allocator that grants less than [max_size], it
    throws the [std::bad_alloc] of a string that it builds before it looks
    at [end]. *)
Theorem decode_truncated_value (max_size memory : Z) (cat : iterator_category)
  (w : bytes) (v : any) (p q : bytes) :
  max_size < 2 ^ 63 ->
  token max_size w v ->
  w = p ++ q -> p <> [] -> q <> [] ->
  decode_range_alloc max_size memory cat p = Throw unexpected_end_of_string
  \/ (decode_range_alloc max_size memory cat p = Undefined
      /\ exists p', p = p' ++ ["i"%char])
  \/ (cat = input_iterator_tag /\ memory < max_size
      /\ decode_range_alloc max_size memory cat p = Throw bad_alloc).
Proof.
  intros Hmax Hw Heq Hp Hq. unfold decode_range_alloc.
  pose proof (decode_data_finishes max_size cat (S (length p)) p
                (Nat.lt_succ_diag_r _)) as Hf.
  destruct (decode_data_alloc_same max_size memory cat (S (length p)) p)
    as [->|(Hcat & Hmem & ->)]; [|now right; right].
  destruct (proj1 (decode_data_truncated_mut max_size Hmax cat) w v Hw p q
              (S (length p)) Heq Hp Hq (Nat.lt_succ_diag_r _)) as [H|H].
  - now left.
  - right. left. split; [exact H|]. now rewrite H in Hf.
Qed.

Lemma decode_truncated_value_witness :
  decode_range_alloc example_max_size example_memory input_iterator_tag
    (lit "d3:cowl4:spam") = Throw unexpected_end_of_string
  \/ (decode_range_alloc example_max_size example_memory input_iterator_tag
        (lit "d3:cowl4:spam") = Undefined
      /\ exists p', lit "d3:cowl4:spam" = p' ++ ["i"%char])
  \/ (input_iterator_tag = input_iterator_tag /\ example_memory < example_max_size
      /\ decode_range_alloc example_max_size example_memory input_iterator_tag
           (lit "d3:cowl4:spam") = Throw bad_alloc).
Proof.
  apply (decode_truncated_value example_max_size example_memory input_iterator_tag
           (lit "d3:cowl4:spami5eee")
           (any_dict [(lit "cow", any_list [any_string (lit "spam"); any_integer 5])])
           (lit "d3:cowl4:spam") (lit "i5eee")).
  - reflexivity.
  - apply (token_dict _ (lit "3:cowl4:spami5ee")
             [(lit "cow", any_list [any_string (lit "spam"); any_integer 5])]).
    + apply (token_pairs_cons _ (lit "3:cow") (lit "l4:spami5ee") [] (lit "cow") _ []).
      * string_token_of (lit "3") (lit "cow").
      * apply (token_list _ (lit "4:spami5e")).
        apply (token_seq_cons _ (lit "4:spam") (lit "i5e")).
        -- apply token_string. string_token_of (lit "4") (lit "spam").
        -- apply (token_seq_cons _ (lit "i5e") []); [|constructor].
           integer_token_of false (lit "5") 5.
      * apply token_pairs_nil.
    + repeat constructor. intros [].
  - reflexivity.
  - discriminate.
  - discriminate.
Defined.

(** ** Native containers and [any] *)

Section Native.

Variable T : Type.
Variable encode_T : ostream -> T -> ostream * option error.
Variable held : T -> any.
Hypothesis encode_held : forall os i, encode_T os i = encode_any os (held i).

Lemma list_encoder_add_held (os : ostream) (value : list T) :
  list_encoder_add encode_T os value
  = list_encoder_add (fun os i => encode_any os i) os (map held value).
Proof.
  revert os. induction value as [|i value IH]; intros os;
    cbn [map list_encoder_add]; [reflexivity|].
  rewrite encode_held. destruct (encode_any os (held i)) as [os' [e|]];
    [reflexivity|apply IH].
Qed.

Lemma dict_encoder_add_held (os : ostream) (value : list (bytes * T)) :
  dict_encoder_add encode_T os value
  = dict_encoder_add (fun os i => encode_any os i) os
      (map (fun kv => (fst kv, held (snd kv))) value).
Proof.
  revert os. induction value as [|[k i] value IH]; intros os;
    cbn [map dict_encoder_add fst snd]; [reflexivity|].
  rewrite encode_held.
  destruct (encode_any (encode_string_view os k) (held i)) as [os' [e|]];
    [reflexivity|apply IH].
Qed.

End Native.

(** X14: a [std::vector<T>] or a [std::map<std::string, T>] is written as
    the [any] that holds the list or the dict of its elements is written,
    whenever an element of type [T] is written as the [any] that holds
    it: the same bytes and the same exception. *)
Theorem encode_native_as_any (T : Type)
  (encode_T : ostream -> T -> ostream * option error) (held : T -> any) :
  (forall os i, encode_T os i = encode_any os (held i)) ->
  (forall os value,
     encode_vector encode_T os value = encode_any os (any_list (map held value)))
  /\ (forall os value,
     encode_map encode_T os value
     = encode_any os (any_dict (map (fun kv => (fst kv, held (snd kv))) value))).
Proof.
  intros Hheld. split; intros os value; cbn [encode_any].
  - unfold encode_vector. now rewrite (list_encoder_add_held T encode_T held Hheld).
  - unfold encode_map. now rewrite (dict_encoder_add_held T encode_T held Hheld).
Qed.

Lemma encode_native_as_any_witness :
  encode_vector (fun os n => (encode_integer os n, None)) [] [1; - 2; 3]
  = encode_any [] (any_list [any_integer 1; any_integer (- 2); any_integer 3]).
Proof.
  apply (proj1 (encode_native_as_any Z (fun os n => (encode_integer os n, None))
                  any_integer (fun os n => eq_refl)) [] [1; - 2; 3]).
Defined.
